(** * WeightedSet: a shallow embedding of [weightedset/_weighted_set.py]

    Weights are Python [float]s, as the source annotates them, that is
    IEEE-754 binary64 values; an [int] argument such as [1] stands for the
    float of the same value.  They are modelled by Rocq's primitive
    [float], whose operations are specified by [SpecFloat] through the
    [FloatAxioms] of the core library.  The [_weights] dictionary is an
    insertion-ordered association list, as Python's [dict] is since 3.7.
    Methods of one object are state transformers on its dictionary; [copy]
    and [update], which involve several objects and aliasing, work on a
    store of objects.

    The file has the definitions first (shapes of floats, the program, the
    vocabulary of the properties), then the facts about binary64
    arithmetic, then the properties of the program. *)

From Stdlib Require Import ZArith Lia Floats.
From stdpp Require Import base list strings sorting.

Set Warnings "-inexact-float".

(** ** Shapes of a binary64 value, by sign and class *)

Module F64.

(** strictly positive and finite *)
Definition sf_pos_finite (x : spec_float) : Prop :=
  match x with S754_finite false _ _ => True | _ => False end.

(** strictly positive, possibly infinite *)
Definition sf_pos (x : spec_float) : Prop :=
  match x with
  | S754_finite false _ _ | S754_infinity false => True
  | _ => False
  end.

(** a zero of either sign, or strictly positive: what [0 <= x] accepts *)
Definition sf_nonneg (x : spec_float) : Prop :=
  match x with
  | S754_zero _ | S754_finite false _ _ | S754_infinity false => True
  | _ => False
  end.

(** not strictly negative: what [x < 0] does not reject (NaN included) *)
Definition sf_not_neg (x : spec_float) : Prop :=
  match x with
  | S754_finite true _ _ | S754_infinity true => False
  | _ => True
  end.

(** strictly positive or NaN: what [x <= 0] does not accept *)
Definition sf_pos_or_nan (x : spec_float) : Prop :=
  match x with
  | S754_nan | S754_finite false _ _ | S754_infinity false => True
  | _ => False
  end.

(** [math.isinf(x) or math.isnan(x)] *)
Definition is_inf_or_nan (x : float) : bool := (is_infinity x || is_nan x)%bool.

End F64.

(** ** The program *)

Module WS.

Import F64.
Open Scope float_scope.

(** The exceptions the class raises. *)
Inductive exn : Set :=
  | ValueError
  | ZeroDivisionError
  | OverflowError
  | KeyError
  | TypeError.

(** A call either returns a value or raises. *)
Inductive outcome (A : Type) : Type :=
  | Ok (a : A)
  | Raise (e : exn).
Arguments Ok {A} a.
Arguments Raise {A} e.

Section WeightedSet.

(** [T = TypeVar("T", bound=Hashable)]: keys are compared by equality. *)
Context {T : Type} `{EqDecision T}.

(** *** [Dict[T, float]]: an insertion-ordered dictionary *)

Definition dict : Type := list (T * float).

(** [d.get(key)] *)
Fixpoint dict_get (d : dict) (key : T) : option float :=
  match d with
  | [] => None
  | (k, v) :: rest => if decide (k = key) then Some v else dict_get rest key
  end.

(** [key in d] *)
Definition dict_contains (d : dict) (key : T) : bool :=
  match dict_get d key with Some _ => true | None => false end.

(** [d[key] = value]: an existing key keeps its position, a new key goes
    to the end. *)
Fixpoint dict_set (d : dict) (key : T) (value : float) : dict :=
  match d with
  | [] => [(key, value)]
  | (k, v) :: rest =>
      if decide (k = key) then (k, value) :: rest
      else (k, v) :: dict_set rest key value
  end.

(** [d.update(other)] *)
Fixpoint dict_update (d other : dict) : dict :=
  match other with
  | [] => d
  | (k, v) :: rest => dict_update (dict_set d k v) rest
  end.

(** *** Methods of one [WeightedSet]

    The state of an object is its [_weights] dictionary.  A method maps the
    dictionary before the call to the outcome of the call and the
    dictionary after it. *)

Definition method (A : Type) : Type := dict -> outcome A * dict.

(** [__init__]: [self._weights = {}] *)
Definition __init__ : dict := [].

(** [__contains__] *)
Definition __contains__ (item : T) (self : dict) : bool := dict_contains self item.

(** [__getitem__]: [self._weights[key]], a [KeyError] when absent *)
Definition __getitem__ (key : T) : method float := fun self =>
  match dict_get self key with
  | Some weight => (Ok weight, self)
  | None => (Raise KeyError, self)
  end.

(** [new_weight in (math.inf, math.nan)].  Membership in a tuple is
    identity or equality with an element.  [new_weight] is the fresh result
    of an arithmetic operation, so it is never the object [math.inf] or
    [math.nan] itself, and a NaN is not equal to [math.nan]. *)
Definition in_inf_nan (new_weight : float) : bool :=
  (new_weight =? infinity) || (new_weight =? nan).

(** The loop shared by [__imul__] and [__itruediv__]:
    [for key, weight in self._weights.items()], with [rescale weight] for
    [weight * scale] or [weight / scale], building [scaled_weights]. *)
Fixpoint scale_loop (rescale : float -> float) (items : list (T * float))
    (scaled_weights : dict) : outcome dict :=
  match items with
  | [] => Ok scaled_weights
  | (key, weight) :: rest =>
      let new_weight := rescale weight in
      if new_weight =? 0 then scale_loop rescale rest scaled_weights
      else if in_inf_nan new_weight then Raise OverflowError
      else scale_loop rescale rest (dict_set scaled_weights key new_weight)
  end.

(** [__imul__]: [self *= scale] *)
Definition __imul__ (scale : float) : method unit := fun self =>
  if scale <? 0 then (Raise ValueError, self)
  else
    match scale_loop (fun weight => weight * scale) self [] with
    | Raise e => (Raise e, self)
    | Ok scaled_weights => (Ok tt, scaled_weights)
    end.

(** [__itruediv__]: [self /= scale] *)
Definition __itruediv__ (scale : float) : method unit := fun self =>
  if scale =? 0 then (Raise ZeroDivisionError, self)
  else if scale <? 0 then (Raise ValueError, self)
  else
    match scale_loop (fun weight => weight / scale) self [] with
    | Raise e => (Raise e, self)
    | Ok scaled_weights => (Ok tt, scaled_weights)
    end.

(** [add(key, weight)] *)
Definition add (key : T) (weight : float) : method unit := fun self =>
  if weight <? 0 then (Raise ValueError, self)
  else if weight =? 0 then (Ok tt, self)
  else if __contains__ key self then
    match dict_get self key with
    | Some current => (Ok tt, dict_set self key (current + weight))
    | None => (Raise KeyError, self)
    end
  else (Ok tt, dict_set self key weight).

(** [for key in oversize_keys: self._weights[key] = limit] *)
Fixpoint clamp_loop (oversize_keys : list T) (limit : float) (self : dict) : dict :=
  match oversize_keys with
  | [] => self
  | key :: rest => clamp_loop rest limit (dict_set self key limit)
  end.

(** [clamp(limit)] *)
Definition clamp (limit : float) : method unit := fun self =>
  if limit =? 0 then (Raise ValueError, self)
  else if limit <? 0 then (Raise ValueError, self)
  else
    let oversize_keys :=
      map fst (List.filter (fun kw : T * float => limit <? snd kw) self) in
    (Ok tt, clamp_loop oversize_keys limit self).

(** [sorted(items, key=itemgetter(1), reverse=True)].  Python's sort is
    stable, compares with [<] only, and with [reverse=True] orders as if
    each comparison were reversed, equal elements keeping their original
    order: an element moves behind exactly those that are strictly
    greater.  When [<] is a total preorder on the weights (no NaN) this
    fixes the result, and the definition below is the builtin.  A list in
    which no weight is greater than the one before it is already in order
    for the builtin, whatever else it holds, and comes back as it is, as
    it does here.  On other lists with a NaN weight the order the builtin
    returns depends on its algorithm and may differ from the one below;
    the keys listed are the same. *)
Fixpoint insert_desc (x : T * float) (l : list (T * float)) : list (T * float) :=
  match l with
  | [] => [x]
  | y :: rest => if snd x <? snd y then y :: insert_desc x rest else x :: l
  end.

Fixpoint sorted_desc (items : list (T * float)) : list (T * float) :=
  match items with
  | [] => []
  | x :: rest => insert_desc x (sorted_desc rest)
  end.

(** [keys()] *)
Definition keys (self : dict) : list T := map fst (sorted_desc self).

(** [max_weight()]: [max(self._weights.values(), default=0)] *)
Definition max_weight (self : dict) : float :=
  match map snd self with
  | [] => 0
  | v :: rest => fold_left (fun m x => if m <? x then x else m) rest v
  end.

(** *** Several objects

    [copy] creates an object and [update] reads other objects, one of which
    may be [self]; objects live in a store and are named by references. *)

Definition ref : Set := nat.
Definition heap : Type := list dict.

(** [r._weights].  The operations only receive references to objects of
    the store; a reference to none reads as an empty mapping and a write
    through it changes nothing. *)
Definition weights (h : heap) (r : ref) : dict := default [] (h !! r).

(** Calling a method on the object [self] of the store. *)
Definition call {A} (self : ref) (m : method A) (h : heap) : outcome A * heap :=
  let '(res, w) := m (weights h self) in (res, <[self := w]> h).

(** [WeightedSet()] *)
Definition new (h : heap) : ref * heap := (length h, h ++ [__init__]).

(** [copy()] *)
Definition copy (self : ref) (h : heap) : ref * heap :=
  let '(newset, h1) := new h in
  (newset, <[newset := dict_update (weights h1 newset) (weights h1 self)]> h1).

(** An argument of [update]: a [WeightedSet] of the store, or an object of
    another type. *)
Inductive pyobj : Set :=
  | WeightedSet (r : ref)
  | NotWeightedSet.

(** [for key in ws.keys(): self.add(key, ws[key])], over the list that
    [ws.keys()] returned; [ws[key]] is read from the store as it is at that
    iteration. *)
Fixpoint update_loop (self ws : ref) (ws_keys : list T) (h : heap)
    : outcome unit * heap :=
  match ws_keys with
  | [] => (Ok tt, h)
  | key :: rest =>
      match __getitem__ key (weights h ws) with
      | (Raise e, _) => (Raise e, h)
      | (Ok weight, _) =>
          match call self (add key weight) h with
          | (Raise e, h') => (Raise e, h')
          | (Ok _, h') => update_loop self ws rest h'
          end
      end
  end.

(** [update], called with the arguments [others] *)
Fixpoint update (self : ref) (others : list pyobj) (h : heap)
    : outcome unit * heap :=
  match others with
  | [] => (Ok tt, h)
  | NotWeightedSet :: _ => (Raise TypeError, h)
  | WeightedSet ws :: rest =>
      match update_loop self ws (keys (weights h ws)) h with
      | (Raise e, h') => (Raise e, h')
      | (Ok _, h') => update self rest h'
      end
  end.

End WeightedSet.

(** ** The vocabulary of the properties *)

Section Vocabulary.

Context {T : Type} `{EqDecision T}.

(** Invariant I1 on one weight: strictly greater than zero and finite. *)
Definition I1_weight (w : float) : bool := (0 <? w) && (w <? infinity).

(** Invariant I1 on a dictionary. *)
Definition I1 (d : @dict T) : Prop := Forall (fun kw => I1_weight (snd kw) = true) d.

(** Invariant I2: one entry per key, as in every Python dictionary. *)
Definition dict_wf (d : @dict T) : Prop := NoDup (map fst d).

(** What the code does maintain of I1: no stored weight is [<= 0]. *)
Definition positive_or_nan (w : float) : Prop := (w <=? 0) = false.
Definition no_nonpositive (d : @dict T) : Prop :=
  Forall (fun kw => positive_or_nan (snd kw)) d.

(** The entries a successful scaling keeps: those whose new weight is not
    zero, with that new weight, in the original order. *)
Definition scaled (rescale : float -> float) (items : list (T * float)) : @dict T :=
  map (fun kw => (fst kw, rescale (snd kw)))
      (List.filter (fun kw => negb (rescale (snd kw) =? 0)) items).

Definition clamp_weight (limit w : float) : float := if limit <? w then limit else w.

(** The mapping after [clamp(limit)]. *)
Definition clamped (limit : float) (d : @dict T) : @dict T :=
  map (fun kw => (fst kw, clamp_weight limit (snd kw))) d.

(** [x] is at least as heavy as [y]. *)
Definition weight_ge (x y : T * float) : Prop := (snd y <=? snd x) = true.

Definition no_nan (l : list (T * float)) : Prop :=
  Forall (fun kw => is_nan (snd kw) = false) l.

(** [k] is present with a weight equal to [v]. *)
Definition has_weight (self : @dict T) (v : float) (k : T) : bool :=
  match dict_get self k with Some w => w =? v | None => false end.

(** Earlier keys of [keys()] are at least as heavy as later ones. *)
Definition keys_non_increasing (self : @dict T) : Prop :=
  forall (i j : nat) ki kj wi wj,
    (i < j)%nat -> keys self !! i = Some ki -> keys self !! j = Some kj ->
    dict_get self ki = Some wi -> dict_get self kj = Some wj ->
    (wj <=? wi) = true.

(** Among the keys of one weight, [keys()] keeps the insertion order. *)
Definition keys_stable (self : @dict T) : Prop :=
  forall v, List.filter (has_weight self v) (keys self) =
            List.filter (has_weight self v) (map fst self).

(** The mapping after every weight was added to itself. *)
Definition doubled (d : @dict T) : @dict T :=
  map (fun kw => (fst kw, snd kw + snd kw)) d.

(** The mapping after the keys in [done] were processed. *)
Definition doubled_on (done : list T) (d : @dict T) : @dict T :=
  map (fun kw => if decide (fst kw ∈ done) then (fst kw, snd kw + snd kw) else kw) d.

(** One entry per key, and no weight [<= 0]. *)
Definition dict_inv (d : @dict T) : Prop := dict_wf d /\ no_nonpositive d.

Definition heap_inv (h : @heap T) : Prop := Forall dict_inv h.

(** [isinstance(o, WeightedSet)] *)
Definition is_weighted_set (o : pyobj) : bool :=
  match o with WeightedSet _ => true | NotWeightedSet => false end.

(** A call of a public operation. *)
Inductive op : Type :=
  | OpNew
  | OpAdd (self : ref) (key : T) (weight : float)
  | OpIMul (self : ref) (scale : float)
  | OpITrueDiv (self : ref) (scale : float)
  | OpClamp (self : ref) (limit : float)
  | OpCopy (self : ref)
  | OpUpdate (self : ref) (others : list pyobj).

Definition pyobj_ok (h : @heap T) (o : pyobj) : bool :=
  match o with
  | WeightedSet r => bool_decide (r < length h)%nat
  | NotWeightedSet => true
  end.

(** The objects a call names exist. *)
Definition op_ok (h : @heap T) (o : op) : bool :=
  match o with
  | OpNew => true
  | OpAdd self _ _ | OpIMul self _ | OpITrueDiv self _ | OpClamp self _
  | OpCopy self => bool_decide (self < length h)%nat
  | OpUpdate self others =>
      bool_decide (self < length h)%nat && forallb (pyobj_ok h) others
  end.

(** The store after the call, whether it returned or raised. *)
Definition run (o : op) (h : @heap T) : @heap T :=
  match o with
  | OpNew => snd (new h)
  | OpAdd self key weight => snd (call self (add key weight) h)
  | OpIMul self scale => snd (call self (__imul__ scale) h)
  | OpITrueDiv self scale => snd (call self (__itruediv__ scale) h)
  | OpClamp self limit => snd (call self (clamp limit) h)
  | OpCopy self => snd (copy self h)
  | OpUpdate self others => snd (update self others h)
  end.

Inductive reachable : @heap T -> Prop :=
  | reachable_empty : reachable []
  | reachable_run h o : reachable h -> op_ok h o = true -> reachable (run o h).

End Vocabulary.

(** ** More of the class, and of the vocabulary *)

Section MoreVocabulary.

Context {T : Type} `{EqDecision T}.

(** [add(key)], with the default [weight = 1] *)
Definition add_default (key : T) : method unit := add key 1.

(** The weight of a key of [self] after [self.update(other)]: [mine] is its
    weight in [self] and [theirs] its weight in [other], when present. *)
Definition merged_weight (mine theirs : option float) : option float :=
  match mine, theirs with
  | Some a, Some b => Some (a + b)
  | None, Some b => Some b
  | _, None => mine
  end.

(** One step of [max]: the running maximum [m] gives way to a greater [x]. *)
Definition max_step (m x : float) : float := if m <? x then x else m.

(** Every stored weight is at most [limit]. *)
Definition bounded_by (limit : float) (d : @dict T) : Prop :=
  Forall (fun kw => (snd kw <=? limit) = true) d.

End MoreVocabulary.

(** ** The stores and mappings of the scenarios *)

Local Open Scope string_scope.
Local Open Scope float_scope.

(** The store after [ws = WeightedSet(); ws.add("a", math.inf)]. *)
Definition heap_inf : @heap string := run (OpAdd 0%nat "a" infinity) (run OpNew []).

(** The mapping after [add("a", 1); add("b", nan); add("c", 2)]. *)
Definition dict_nan : @dict string :=
  snd (add "c" 2 (snd (add "b" nan (snd (add "a" 1 __init__))))).

(** The mapping after [add("a", 1); add("b", 0.000001); add("c", 1.1);
    add("d", 2); add("e", 1e7); add("f", 3.0)]. *)
Definition dict_six : @dict string :=
  let s1 := snd (add "a" 1 __init__) in
  let s2 := snd (add "b" 0.000001 s1) in
  let s3 := snd (add "c" 1.1 s2) in
  let s4 := snd (add "d" 2 s3) in
  let s5 := snd (add "e" 1e7 s4) in
  snd (add "f" 3.0 s5).

(** The store after [s = WeightedSet(); s.add("a", 1); o = WeightedSet();
    o.add("a", 2)]. *)
Definition heap_two : @heap string :=
  run (OpAdd 1%nat "a" 2) (run OpNew (run (OpAdd 0%nat "a" 1) (run OpNew []))).

End WS.

(** ** Facts about binary64 arithmetic *)

Module F64Facts.

Import F64.
Open Scope Z_scope.

Lemma digits2_pos_size p : digits2_pos p = Pos.size p.
Proof. induction p; simpl; congruence. Qed.

Lemma digits2_pos_lower p : 2 ^ (Zpos (digits2_pos p) - 1) <= Zpos p.
Proof.
  rewrite digits2_pos_size.
  pose proof (Pos.size_le p) as H.
  assert (Hz : 2 ^ Zpos (Pos.size p) <= 2 * Zpos p).
  { change 2 with (Zpos 2) at 1. rewrite <- Pos2Z.inj_pow.
    change (2 * Zpos p) with (Zpos (p~0)). exact H. }
  replace (Zpos (Pos.size p)) with (Z.succ (Zpos (Pos.size p) - 1)) in Hz by lia.
  rewrite Z.pow_succ_r in Hz by lia. lia.
Qed.

Lemma shr_1_m mrs : 0 <= shr_m mrs -> shr_m (shr_1 mrs) = shr_m mrs / 2.
Proof.
  destruct mrs as [m r s]; simpl. intros Hm.
  destruct m as [|p|p]; [reflexivity| |lia].
  destruct p as [p|p|]; simpl.
  - rewrite Pos2Z.inj_xI. apply Z.div_unique with 1; lia.
  - rewrite Pos2Z.inj_xO. apply Z.div_unique with 0; lia.
  - reflexivity.
Qed.

Lemma iter_shr_1_m p : forall mrs,
  0 <= shr_m mrs -> shr_m (SpecFloat.iter_pos shr_1 p mrs) = shr_m mrs / 2 ^ Zpos p.
Proof.
  induction p as [p IH|p IH|]; intros mrs Hm; simpl SpecFloat.iter_pos.
  - assert (H1 : 0 <= shr_m (shr_1 mrs)).
    { rewrite shr_1_m by assumption. apply Z.div_pos; lia. }
    assert (H2 : 0 <= shr_m (SpecFloat.iter_pos shr_1 p (shr_1 mrs))).
    { rewrite IH by assumption. apply Z.div_pos; lia. }
    rewrite IH, IH, shr_1_m by assumption.
    rewrite !Z.div_div by lia. f_equal.
    rewrite Pos2Z.inj_xI, Z.pow_add_r, Z.pow_mul_r, Z.pow_1_r by lia.
    change (2 ^ 2) with 4.
    replace (4 ^ Zpos p) with (2 ^ Zpos p * 2 ^ Zpos p).
    + lia.
    + rewrite <- Z.pow_add_r by lia. replace (Zpos p + Zpos p) with (2 * Zpos p) by lia.
      rewrite Z.pow_mul_r by lia. reflexivity.
  - assert (H2 : 0 <= shr_m (SpecFloat.iter_pos shr_1 p mrs)).
    { rewrite IH by assumption. apply Z.div_pos; lia. }
    rewrite IH, IH by assumption.
    rewrite Z.div_div by lia. f_equal.
    rewrite Pos2Z.inj_xO. rewrite <- Z.pow_add_r by lia. f_equal. lia.
  - rewrite shr_1_m by assumption. reflexivity.
Qed.

Lemma shr_record_of_loc_m m l : shr_m (shr_record_of_loc m l) = m.
Proof. destruct l as [|[]]; reflexivity. Qed.

(** Shifting to the target exponent keeps a mantissa non-negative. *)
Lemma shr_fexp_nonneg prec emax m e l :
  0 <= m -> 0 <= shr_m (fst (shr_fexp prec emax m e l)).
Proof.
  intros Hm. unfold shr_fexp, shr.
  destruct (fexp prec emax (Zdigits2 m + e) - e) as [|p|p]; simpl;
    rewrite ?shr_record_of_loc_m; try assumption.
  rewrite iter_shr_1_m by (rewrite shr_record_of_loc_m; assumption).
  rewrite shr_record_of_loc_m. apply Z.div_pos; lia.
Qed.

(** Above the smallest exponent, shifting never loses a positive mantissa
    entirely, and the exponent stays above the smallest one. *)
Lemma shr_fexp_pos prec emax m e l :
  0 < prec -> 0 < m -> SpecFloat.emin prec emax <= e ->
  0 < shr_m (fst (shr_fexp prec emax m e l))
  /\ SpecFloat.emin prec emax <= snd (shr_fexp prec emax m e l).
Proof.
  intros Hprec Hm He. unfold shr_fexp, shr.
  destruct (fexp prec emax (Zdigits2 m + e) - e) as [|p|p] eqn:Hn; simpl;
    rewrite ?shr_record_of_loc_m; try (split; assumption).
  rewrite iter_shr_1_m by (rewrite shr_record_of_loc_m; lia).
  rewrite shr_record_of_loc_m.
  destruct m as [|q|q]; try lia. simpl Zdigits2 in Hn.
  unfold fexp in Hn.
  assert (Hp : Zpos p = Zpos (digits2_pos q) - prec) by lia.
  split; [|lia].
  apply Z.div_str_pos. split; [lia|].
  pose proof (digits2_pos_lower q) as Hlow.
  assert (Hle : 2 ^ Zpos p <= 2 ^ (Zpos (digits2_pos q) - 1)).
  { apply Z.pow_le_mono_r; lia. }
  lia.
Qed.

Lemma round_nearest_even_pos m l : 0 < m -> 0 < round_nearest_even m l.
Proof.
  intros Hm. destruct l as [|[]]; simpl; try lia.
  destruct (Z.even m); lia.
Qed.

Lemma round_nearest_even_nonneg m l : 0 <= m -> 0 <= round_nearest_even m l.
Proof.
  intros Hm. destruct l as [|[]]; simpl; try lia.
  destruct (Z.even m); lia.
Qed.

(** Rounding a non-negative mantissa gives a zero, a finite number or an
    infinity of the requested sign, never a NaN. *)
Lemma binary_round_aux_shape prec emax m e l :
  0 <= m ->
  match binary_round_aux prec emax false m e l with
  | S754_zero false | S754_infinity false | S754_finite false _ _ => True
  | _ => False
  end.
Proof.
  intros Hm. unfold binary_round_aux.
  pose proof (shr_fexp_nonneg prec emax m e l Hm) as H1.
  destruct (shr_fexp prec emax m e l) as [mrs' e'] eqn:E1. simpl in H1.
  pose proof (shr_fexp_nonneg prec emax _ e' loc_Exact
                (round_nearest_even_nonneg _ (loc_of_shr_record mrs') H1)) as H2.
  destruct (shr_fexp prec emax _ e' loc_Exact) as [mrs'' e''] eqn:E2. simpl in H2.
  destruct (shr_m mrs'') as [|q|q]; try exact I; try lia.
  destruct (e'' <=? emax - prec); exact I.
Qed.

(** Above the smallest exponent, rounding a positive mantissa gives a
    positive finite number or plus infinity. *)
Lemma binary_round_aux_pos prec emax m e l :
  0 < prec -> 0 < m -> SpecFloat.emin prec emax <= e ->
  sf_pos (binary_round_aux prec emax false m e l).
Proof.
  intros Hprec Hm He. unfold binary_round_aux.
  destruct (shr_fexp_pos prec emax m e l Hprec Hm He) as [H1 H1e].
  destruct (shr_fexp prec emax m e l) as [mrs' e'] eqn:E1. simpl in H1, H1e.
  destruct (shr_fexp_pos prec emax _ e' loc_Exact Hprec
              (round_nearest_even_pos _ (loc_of_shr_record mrs') H1) H1e) as [H2 _].
  destruct (shr_fexp prec emax _ e' loc_Exact) as [mrs'' e''] eqn:E2. simpl in H2.
  destruct (shr_m mrs'') as [|q|q]; try lia.
  destruct (e'' <=? emax - prec); exact I.
Qed.

(** *** Products, quotients and sums at the level of [SpecFloat] *)

Lemma SFmul_not_neg prec emax x y :
  sf_not_neg x -> sf_not_neg y -> sf_not_neg (SFmul prec emax x y).
Proof.
  destruct x as [[]|[]| |[] mx ex], y as [[]|[]| |[] my ey]; simpl; try tauto.
  intros _ _.
  pose proof (binary_round_aux_shape prec emax (Zpos (mx * my)) (ex + ey) loc_Exact) as H.
  destruct (binary_round_aux _ _ _ _ _ _) as [[]|[]| |[] ? ?]; simpl; try tauto; apply H; lia.
Qed.

Lemma SFmul_pos_nonneg prec emax x y :
  sf_pos_finite x -> sf_nonneg y -> sf_nonneg (SFmul prec emax x y).
Proof.
  destruct x as [[]|[]| |[] mx ex], y as [[]|[]| |[] my ey]; simpl; try tauto.
  intros _ _.
  pose proof (binary_round_aux_shape prec emax (Zpos (mx * my)) (ex + ey) loc_Exact) as H.
  destruct (binary_round_aux _ _ _ _ _ _) as [[]|[]| |[] ? ?]; simpl; try tauto; apply H; lia.
Qed.

Lemma SFdiv_core_binary_nonneg prec emax mx ex my ey :
  0 <= fst (fst (SFdiv_core_binary prec emax (Zpos mx) ex (Zpos my) ey)).
Proof.
  unfold SFdiv_core_binary.
  set (s := ex - ey - _). clearbody s.
  set (m' := match s with Z0 => Zpos mx | Zpos _ => Z.shiftl (Zpos mx) s | Zneg _ => 0 end).
  assert (Hm' : 0 <= m').
  { subst m'. destruct s; try lia. apply Z.shiftl_nonneg. lia. }
  clearbody m'.
  pose proof (Z.div_pos m' (Zpos my) Hm' ltac:(lia)) as Hq.
  unfold Z.div in Hq. destruct (Z.div_eucl m' (Zpos my)) as [q r]. exact Hq.
Qed.

Lemma SFdiv_finite_shape prec emax mx ex my ey :
  match SFdiv prec emax (S754_finite false mx ex) (S754_finite false my ey) with
  | S754_zero false | S754_infinity false | S754_finite false _ _ => True
  | _ => False
  end.
Proof.
  simpl.
  pose proof (SFdiv_core_binary_nonneg prec emax mx ex my ey) as Hq.
  destruct (SFdiv_core_binary prec emax (Zpos mx) ex (Zpos my) ey) as [[mz ez] lz].
  apply binary_round_aux_shape. exact Hq.
Qed.

Lemma SFdiv_not_neg prec emax x y :
  sf_not_neg x -> sf_pos_or_nan y -> sf_not_neg (SFdiv prec emax x y).
Proof.
  destruct x as [[]|[]| |[] mx ex], y as [[]|[]| |[] my ey];
    try (simpl; tauto).
  intros _ _.
  pose proof (SFdiv_finite_shape prec emax mx ex my ey) as H.
  destruct (SFdiv _ _ _ _) as [[]|[]| |[] ? ?]; simpl; tauto.
Qed.

Lemma SFdiv_pos_pos prec emax x y :
  sf_pos_finite x -> sf_pos y -> sf_nonneg (SFdiv prec emax x y).
Proof.
  destruct x as [[]|[]| |[] mx ex], y as [[]|[]| |[] my ey];
    try (simpl; tauto).
  intros _ _.
  pose proof (SFdiv_finite_shape prec emax mx ex my ey) as H.
  destruct (SFdiv _ _ _ _) as [[]|[]| |[] ? ?]; simpl; tauto.
Qed.

Lemma valid_binary_emin prec emax s m e :
  SpecFloat.valid_binary prec emax (S754_finite s m e) = true -> SpecFloat.emin prec emax <= e.
Proof.
  simpl. unfold bounded, canonical_mantissa, fexp.
  intros H. apply andb_prop in H as [H _]. apply Z.eqb_eq in H. lia.
Qed.

Lemma shl_align_emin prec emax m e :
  SpecFloat.emin prec emax <= e ->
  SpecFloat.emin prec emax <=
    snd (shl_align m e (fexp prec emax (Zpos (digits2_pos m) + e))).
Proof.
  intros He. unfold shl_align.
  destruct (fexp prec emax _ - e) eqn:E; simpl; try assumption.
  unfold fexp. lia.
Qed.

(** The sum of two strictly positive binary64 values is strictly positive
    (or plus infinity): it never rounds down to zero. *)
Lemma SFadd_pos prec emax x y :
  0 < prec ->
  SpecFloat.valid_binary prec emax x = true -> SpecFloat.valid_binary prec emax y = true ->
  sf_pos_or_nan x -> sf_pos_or_nan y -> sf_pos_or_nan (SFadd prec emax x y).
Proof.
  intros Hprec Vx Vy.
  destruct x as [[]|[]| |[] mx ex], y as [[]|[]| |[] my ey];
    try (simpl; tauto).
  intros _ _.
  apply valid_binary_emin in Vx, Vy.
  unfold SFadd, cond_Zopp.
  set (ez := Z.min ex ey).
  assert (Hez : SpecFloat.emin prec emax <= ez) by (subst ez; lia).
  change (Zpos ?a + Zpos ?b) with (Zpos (a + b)).
  unfold binary_normalize, binary_round.
  set (m := (fst (shl_align mx ex ez) + fst (shl_align my ey ez))%positive).
  pose proof (shl_align_emin prec emax m ez Hez) as Hal.
  destruct (shl_align m ez _) as [mz ez'] eqn:E. simpl in Hal.
  pose proof (binary_round_aux_pos prec emax (Zpos mz) ez' loc_Exact Hprec
                ltac:(lia) Hal) as H.
  destruct (binary_round_aux _ _ _ _ _ _) as [[]|[]| |[] ? ?]; simpl in *; tauto.
Qed.

(** *** Comparisons at the level of [SpecFloat] *)

Ltac cmp_cases :=
  repeat match goal with
  | |- context [Z.compare ?a ?b] => destruct (Z.compare_spec a b)
  | H : context [Z.compare ?a ?b] |- _ => destruct (Z.compare_spec a b)
  | |- context [Pos.compare_cont Eq ?a ?b] =>
      change (Pos.compare_cont Eq a b) with (Pos.compare a b);
      destruct (Pos.compare_spec a b)
  | H : context [Pos.compare_cont Eq ?a ?b] |- _ =>
      change (Pos.compare_cont Eq a b) with (Pos.compare a b) in H;
      destruct (Pos.compare_spec a b)
  end.

Ltac sf_cmp :=
  unfold SFleb, SFltb, SFeqb, SFcompare; intros;
  cmp_cases; simpl in *; subst; try congruence; try lia.

Ltac sf_destruct x := destruct x as [[]|[]| |[] ? ?].

Lemma SFltb_irrefl x : SFltb x x = false.
Proof. sf_destruct x; try reflexivity; sf_cmp. Qed.

Lemma SFleb_not_ltb x y : SFleb x y = true -> SFltb y x = false.
Proof. sf_destruct x; sf_destruct y; try (simpl; congruence); sf_cmp. Qed.

Lemma SFltb_false_leb x y :
  x <> S754_nan -> y <> S754_nan -> SFltb x y = false -> SFleb y x = true.
Proof. sf_destruct x; sf_destruct y; try (simpl; congruence); sf_cmp. Qed.

Lemma SFleb_trans x y z :
  SFleb x y = true -> SFleb y z = true -> SFleb x z = true.
Proof.
  sf_destruct x; sf_destruct y; sf_destruct z; try (simpl; congruence); sf_cmp.
Qed.

Lemma SFltb_eqb_class x y w :
  SFltb x y = true -> SFeqb x w = true -> SFeqb y w = true -> False.
Proof.
  sf_destruct x; sf_destruct y; sf_destruct w; try (simpl; congruence); sf_cmp.
Qed.

(** *** The same facts on primitive floats

    [x <? y], [x <=? y] and [x =? y] are Python's [<], [<=] and [==] on
    floats; [0] stands for the integer literal [0] of the source, which
    Python compares with a float by value. *)

Open Scope float_scope.

Lemma Prim2SF_0 : Prim2SF 0 = S754_zero false.
Proof. reflexivity. Qed.

Lemma Prim2SF_infinity : Prim2SF infinity = S754_infinity false.
Proof. reflexivity. Qed.

Ltac to_sf :=
  unfold is_inf_or_nan, is_infinity, is_nan in *;
  rewrite ?FloatAxioms.ltb_spec, ?FloatAxioms.leb_spec, ?FloatAxioms.eqb_spec,
    ?FloatAxioms.abs_spec in *;
  rewrite ?Prim2SF_0, ?Prim2SF_infinity in *.

Lemma lt0_sf_pos w : (0 <? w) = true <-> sf_pos (Prim2SF w).
Proof. to_sf. sf_destruct (Prim2SF w); cbv; intuition congruence. Qed.

Lemma le0_sf_nonneg w : (0 <=? w) = true <-> sf_nonneg (Prim2SF w).
Proof. to_sf. sf_destruct (Prim2SF w); cbv; intuition congruence. Qed.

Lemma pos_finite_sf w :
  (0 <? w) = true -> (w <? infinity) = true -> sf_pos_finite (Prim2SF w).
Proof. to_sf. sf_destruct (Prim2SF w); cbv; intuition congruence. Qed.

Lemma not_le0_sf w : (w <=? 0) = false <-> sf_pos_or_nan (Prim2SF w).
Proof. to_sf. sf_destruct (Prim2SF w); cbv; intuition congruence. Qed.

Lemma not_lt0_sf w : (w <? 0) = false <-> sf_not_neg (Prim2SF w).
Proof. to_sf. sf_destruct (Prim2SF w); cbv; intuition congruence. Qed.

Lemma eq0_sf w : (w =? 0) = true <-> exists s, Prim2SF w = S754_zero s.
Proof.
  to_sf. sf_destruct (Prim2SF w); cbv; split; intros H;
    try congruence; try (destruct H; congruence); eauto.
Qed.

Lemma is_nan_sf w : is_nan w = true <-> Prim2SF w = S754_nan.
Proof.
  to_sf. pose proof (SFltb_irrefl (Prim2SF w)) as Hirr.
  sf_destruct (Prim2SF w); try (cbv; intuition congruence);
    unfold SFeqb; unfold SFltb in Hirr;
    destruct (SFcompare _ _) as [[]|] eqn:E; simpl; try (intuition congruence);
    revert E; sf_cmp.
Qed.

Lemma inf_or_nan_sf x :
  is_inf_or_nan x = true <->
  match Prim2SF x with S754_infinity _ | S754_nan => True | _ => False end.
Proof.
  unfold is_inf_or_nan. rewrite orb_true_iff, is_nan_sf.
  unfold is_infinity. rewrite FloatAxioms.eqb_spec, abs_spec, Prim2SF_infinity.
  sf_destruct (Prim2SF x); cbv; intuition congruence.
Qed.

Lemma eq_inf_sf x : (x =? infinity) = true <-> Prim2SF x = S754_infinity false.
Proof. to_sf. sf_destruct (Prim2SF x); cbv; intuition congruence. Qed.

Lemma sf_pos_or_nan_not_neg x : sf_pos_or_nan x -> sf_not_neg x.
Proof. sf_destruct x; simpl; tauto. Qed.

Lemma sf_not_neg_nonzero x :
  sf_not_neg x -> (forall s, x <> S754_zero s) -> sf_pos_or_nan x.
Proof. sf_destruct x; simpl; try tauto; intros _ H; eapply H; reflexivity. Qed.

(** A weight that is neither [< 0] nor [== 0] is not [<= 0]. *)
Lemma fresh_not_le0 w : (w <? 0) = false -> (w =? 0) = false -> (w <=? 0) = false.
Proof. to_sf. sf_destruct (Prim2SF w); cbv; congruence. Qed.

Lemma add_not_le0 c w :
  (c <=? 0) = false -> (w <=? 0) = false -> (c + w <=? 0) = false.
Proof.
  rewrite !not_le0_sf, add_spec. intros Hc Hw.
  apply SFadd_pos; auto using Prim2SF_valid. reflexivity.
Qed.

Lemma nonzero_sf x : (x =? 0) = false -> forall s, Prim2SF x <> S754_zero s.
Proof.
  intros H s E. assert (H' : (x =? 0) = true) by (apply eq0_sf; eauto). congruence.
Qed.

Lemma mul_not_le0 w s :
  (w <=? 0) = false -> (s <? 0) = false -> (w * s =? 0) = false ->
  (w * s <=? 0) = false.
Proof.
  intros Hw Hs Hz. apply not_le0_sf in Hw. apply not_lt0_sf in Hs.
  apply not_le0_sf. apply sf_not_neg_nonzero; [|apply nonzero_sf; assumption].
  rewrite mul_spec. apply SFmul_not_neg; auto using sf_pos_or_nan_not_neg.
Qed.

Lemma div_not_le0 w d :
  (w <=? 0) = false -> (d =? 0) = false -> (d <? 0) = false ->
  (w / d =? 0) = false -> (w / d <=? 0) = false.
Proof.
  intros Hw Hd0 Hd Hz. apply not_le0_sf in Hw.
  pose proof (fresh_not_le0 d Hd Hd0) as Hd'. apply not_le0_sf in Hd'.
  apply not_le0_sf. apply sf_not_neg_nonzero; [|apply nonzero_sf; assumption].
  rewrite div_spec. apply SFdiv_not_neg; auto using sf_pos_or_nan_not_neg.
Qed.

(** Scaling a positive finite weight by a non-negative factor never gives
    a NaN or minus infinity: the only non-finite outcome is plus infinity. *)
Lemma mul_overflow_is_inf w s :
  (0 <? w) = true -> (w <? infinity) = true -> (0 <=? s) = true ->
  is_inf_or_nan (w * s) = true -> (w * s =? infinity) = true.
Proof.
  intros Hw Hfin Hs Hov. apply eq_inf_sf. apply inf_or_nan_sf in Hov.
  pose proof (SFmul_pos_nonneg prec emax _ _ (pos_finite_sf w Hw Hfin)
                (proj1 (le0_sf_nonneg s) Hs)) as H.
  rewrite mul_spec in *. unfold SF64mul in *.
  sf_destruct (SFmul prec emax (Prim2SF w) (Prim2SF s)); simpl in *; tauto.
Qed.

Lemma div_overflow_is_inf w d :
  (0 <? w) = true -> (w <? infinity) = true -> (0 <? d) = true ->
  is_inf_or_nan (w / d) = true -> (w / d =? infinity) = true.
Proof.
  intros Hw Hfin Hd Hov. apply eq_inf_sf. apply inf_or_nan_sf in Hov.
  pose proof (SFdiv_pos_pos prec emax _ _ (pos_finite_sf w Hw Hfin)
                (proj1 (lt0_sf_pos d) Hd)) as H.
  rewrite div_spec in *. unfold SF64div in *.
  sf_destruct (SFdiv prec emax (Prim2SF w) (Prim2SF d)); simpl in *; tauto.
Qed.

Lemma mul_zero_is_zero w s :
  (0 <? w) = true -> (w <? infinity) = true -> (s =? 0) = true ->
  (w * s =? 0) = true.
Proof.
  intros Hw Hfin Hs. pose proof (pos_finite_sf w Hw Hfin) as Hpf.
  apply eq0_sf in Hs as [sg Hs]. apply eq0_sf. rewrite mul_spec, Hs.
  sf_destruct (Prim2SF w); simpl in Hpf; try tauto. simpl. eauto.
Qed.

(** Adding a zero is exact. *)
Lemma add_zero_l z w : (z =? 0) = true -> (0 <? w) = true -> z + w = w.
Proof.
  intros Hz Hw. apply eq0_sf in Hz as [sg Hz]. apply lt0_sf_pos in Hw.
  assert (H : Prim2SF (z + w) = Prim2SF w).
  { rewrite add_spec, Hz.
    sf_destruct (Prim2SF w); simpl in Hw; try tauto; reflexivity. }
  rewrite <- (SF2Prim_Prim2SF (z + w)), H. apply SF2Prim_Prim2SF.
Qed.

Lemma add_zero_r w z : (0 <? w) = true -> (z =? 0) = true -> w + z = w.
Proof.
  intros Hw Hz. apply eq0_sf in Hz as [sg Hz]. apply lt0_sf_pos in Hw.
  assert (H : Prim2SF (w + z) = Prim2SF w).
  { rewrite add_spec, Hz.
    sf_destruct (Prim2SF w); simpl in Hw; try tauto; reflexivity. }
  rewrite <- (SF2Prim_Prim2SF (w + z)), H. apply SF2Prim_Prim2SF.
Qed.

Lemma ltb_irrefl x : (x <? x) = false.
Proof. to_sf. apply SFltb_irrefl. Qed.

Lemma leb_not_ltb x y : (x <=? y) = true -> (y <? x) = false.
Proof. to_sf. apply SFleb_not_ltb. Qed.

Lemma ltb_false_leb x y :
  is_nan x = false -> is_nan y = false -> (x <? y) = false -> (y <=? x) = true.
Proof.
  intros Hx Hy. rewrite FloatAxioms.ltb_spec, FloatAxioms.leb_spec.
  apply SFltb_false_leb; intros E; apply is_nan_sf in E; congruence.
Qed.

Lemma leb_trans x y z : (x <=? y) = true -> (y <=? z) = true -> (x <=? z) = true.
Proof. to_sf. apply SFleb_trans. Qed.

Lemma ltb_eqb_class x y w :
  (x <? y) = true -> (x =? w) = true -> (y =? w) = true -> False.
Proof. to_sf. apply SFltb_eqb_class. Qed.

Lemma lt0_not_special w :
  (0 <? w) = true -> (w <? 0) = false /\ (w =? 0) = false.
Proof. to_sf. sf_destruct (Prim2SF w); cbv; intuition congruence. Qed.

Lemma le0_not_lt0 w : (0 <=? w) = true -> (w <? 0) = false.
Proof. to_sf. sf_destruct (Prim2SF w); cbv; intuition congruence. Qed.

Lemma le0_cases w : (0 <=? w) = true -> (w =? 0) = true \/ (0 <? w) = true.
Proof. to_sf. sf_destruct (Prim2SF w); cbv; intuition congruence. Qed.

(** *** Further facts on primitive floats *)

Lemma SFadd_pos_finite prec emax x y :
  (0 < prec)%Z ->
  SpecFloat.valid_binary prec emax x = true ->
  SpecFloat.valid_binary prec emax y = true ->
  sf_pos_finite x -> sf_pos_finite y -> sf_pos (SFadd prec emax x y).
Proof.
  intros Hprec Vx Vy.
  destruct x as [[]|[]| |[] mx ex], y as [[]|[]| |[] my ey];
    try (simpl; tauto).
  intros _ _.
  apply valid_binary_emin in Vx, Vy.
  unfold SFadd, cond_Zopp.
  set (ez := Z.min ex ey).
  assert (Hez : (SpecFloat.emin prec emax <= ez)%Z) by (subst ez; lia).
  change (Zpos ?a + Zpos ?b)%Z with (Zpos (a + b)).
  unfold binary_normalize, binary_round.
  set (m := (fst (shl_align mx ex ez) + fst (shl_align my ey ez))%positive).
  pose proof (shl_align_emin prec emax m ez Hez) as Hal.
  destruct (shl_align m ez _) as [mz ez'] eqn:E. simpl in Hal.
  apply binary_round_aux_pos; [assumption|lia|assumption].
Qed.

(** The sum of two positive finite weights is positive, possibly
    infinite, and not a NaN. *)
Lemma add_pos_finite a b :
  (0 <? a) = true -> (a <? infinity) = true ->
  (0 <? b) = true -> (b <? infinity) = true ->
  (0 <? a + b) = true.
Proof.
  intros Ha Hfa Hb Hfb. apply lt0_sf_pos. rewrite add_spec.
  apply SFadd_pos_finite; auto using Prim2SF_valid, pos_finite_sf. reflexivity.
Qed.

Lemma sf_nonneg_I1 x :
  (0 <=? x) = true -> (x =? 0) = false -> (x =? infinity) = false ->
  (0 <? x) && (x <? infinity) = true.
Proof. to_sf. sf_destruct (Prim2SF x); cbv; congruence. Qed.

Lemma mul_nonneg w s :
  (0 <? w) = true -> (w <? infinity) = true -> (0 <=? s) = true ->
  (0 <=? w * s) = true.
Proof.
  intros Hw Hf Hs. apply le0_sf_nonneg. rewrite mul_spec.
  apply SFmul_pos_nonneg; [now apply pos_finite_sf|now apply le0_sf_nonneg].
Qed.

Lemma div_nonneg w d :
  (0 <? w) = true -> (w <? infinity) = true -> (0 <? d) = true ->
  (0 <=? w / d) = true.
Proof.
  intros Hw Hf Hd. apply le0_sf_nonneg. rewrite div_spec.
  apply SFdiv_pos_pos; [now apply pos_finite_sf|now apply lt0_sf_pos].
Qed.

Lemma mul_infinity w :
  (0 <? w) = true -> (w <? infinity) = true -> (w * infinity =? infinity) = true.
Proof.
  intros Hw Hf. pose proof (pos_finite_sf w Hw Hf) as Hpf.
  apply eq_inf_sf. rewrite mul_spec, Prim2SF_infinity.
  sf_destruct (Prim2SF w); simpl in Hpf; try contradiction. reflexivity.
Qed.

Lemma div_infinity w :
  (0 <? w) = true -> (w <? infinity) = true -> (w / infinity =? 0) = true.
Proof.
  intros Hw Hf. pose proof (pos_finite_sf w Hw Hf) as Hpf.
  apply eq0_sf. rewrite div_spec, Prim2SF_infinity.
  sf_destruct (Prim2SF w); simpl in Hpf; try contradiction. simpl. eauto.
Qed.

Lemma SFleb_antisym x y : SFleb x y = true -> SFleb y x = true -> SFeqb x y = true.
Proof. sf_destruct x; sf_destruct y; try (simpl; congruence); sf_cmp. Qed.

Lemma leb_antisym x y : (x <=? y) = true -> (y <=? x) = true -> (x =? y) = true.
Proof. to_sf. apply SFleb_antisym. Qed.

Lemma SFleb_refl x : x <> S754_nan -> SFleb x x = true.
Proof. sf_destruct x; try (simpl; congruence); sf_cmp. Qed.

Lemma leb_refl x : is_nan x = false -> (x <=? x) = true.
Proof.
  intros Hx. rewrite FloatAxioms.leb_spec. apply SFleb_refl.
  intros E. apply is_nan_sf in E. congruence.
Qed.

Lemma ltb_not_nan x y : (x <? y) = true -> is_nan x = false /\ is_nan y = false.
Proof.
  intros H. split.
  - destruct (is_nan x) eqn:E; [|reflexivity]. apply is_nan_sf in E.
    revert H. rewrite FloatAxioms.ltb_spec, E. discriminate.
  - destruct (is_nan y) eqn:E; [|reflexivity]. apply is_nan_sf in E.
    revert H. rewrite FloatAxioms.ltb_spec, E.
    sf_destruct (Prim2SF x); discriminate.
Qed.

Lemma ltb_trans_inf x y :
  (x <? y) = true -> (y <? infinity) = true -> (x <? infinity) = true.
Proof.
  to_sf. sf_destruct (Prim2SF x); sf_destruct (Prim2SF y); cbv; congruence.
Qed.

(** A limit that passed the checks of [clamp] and is below a finite weight
    is itself positive and finite. *)
Lemma limit_below_finite limit w :
  (limit =? 0) = false -> (limit <? 0) = false ->
  (limit <? w) = true -> (w <? infinity) = true ->
  (0 <? limit) && (limit <? infinity) = true.
Proof.
  intros H0 Hneg Hlt Hf. pose proof (ltb_trans_inf _ _ Hlt Hf) as Hfin.
  rewrite Hfin, andb_true_r. destruct (ltb_not_nan _ _ Hlt) as [Hn _].
  assert (Hnn : Prim2SF limit <> S754_nan).
  { intros E. apply is_nan_sf in E. congruence. }
  clear Hn Hlt Hf Hfin. revert H0 Hneg Hnn.
  to_sf. sf_destruct (Prim2SF limit); cbv; congruence.
Qed.

Lemma I1_not_nan w : (0 <? w) = true -> is_nan w = false.
Proof. intros H. now destruct (ltb_not_nan _ _ H). Qed.

End F64Facts.

(** ** Properties of the program *)

Module WSFacts.

Import F64 WS F64Facts.
Open Scope float_scope.

Section Properties.

Context {T : Type} `{EqDecision T}.
Implicit Types (self d : @dict T) (key k : T) (h : @heap T).
Implicit Types (l items : list (T * float)).

Lemma I1_weight_split w :
  I1_weight w = true -> (0 <? w) = true /\ (w <? infinity) = true.
Proof. unfold I1_weight. apply andb_prop. Qed.

Lemma I1_In d kw :
  I1 d -> In kw d -> (0 <? snd kw) = true /\ (snd kw <? infinity) = true.
Proof.
  unfold I1. rewrite List.Forall_forall. intros HI Hin.
  apply I1_weight_split. auto.
Qed.

(** *** Dictionaries *)

Lemma dict_get_In d k w : dict_get d k = Some w -> In (k, w) d.
Proof.
  induction d as [|[k' w'] d IH]; simpl; [discriminate|].
  destruct (decide (k' = k)) as [->|]; intros E.
  - injection E as ->. now left.
  - right. auto.
Qed.

Lemma dict_get_None d k : dict_get d k = None <-> ~ In k (map fst d).
Proof.
  induction d as [|[k' w'] d IH]; simpl; [tauto|].
  destruct (decide (k' = k)) as [->|]; [|rewrite IH]; intuition congruence.
Qed.

Lemma In_dict_get d k w : dict_wf d -> In (k, w) d -> dict_get d k = Some w.
Proof.
  unfold dict_wf. induction d as [|[k' w'] d IH]; simpl; [tauto|].
  intros Hnd [E|Hin]; inversion Hnd as [|? ? Hk' Hnd']; subst;
    rewrite list_elem_of_In in Hk'.
  - injection E as -> ->. now rewrite decide_True.
  - destruct (decide (k' = k)) as [->|]; [|auto].
    exfalso. apply Hk'. change k with (fst (k, w)). now apply in_map.
Qed.

Lemma dict_contains_false d k : dict_contains d k = false <-> ~ In k (map fst d).
Proof.
  unfold dict_contains. rewrite <- dict_get_None.
  destruct (dict_get d k); intuition congruence.
Qed.

(** Assigning to an absent key appends an entry. *)
Lemma dict_set_absent d k v : ~ In k (map fst d) -> dict_set d k v = d ++ [(k, v)].
Proof.
  induction d as [|[k' w'] d IH]; simpl; [reflexivity|].
  intros Hk. destruct (decide (k' = k)) as [->|]; [tauto|].
  rewrite IH by tauto. reflexivity.
Qed.

(** Assigning to a present key of a well-formed dictionary rewrites its
    entry in place. *)
Lemma dict_set_present d k v :
  dict_wf d -> In k (map fst d) ->
  dict_set d k v = map (fun kw => if decide (fst kw = k) then (fst kw, v) else kw) d.
Proof.
  unfold dict_wf. induction d as [|[k' w'] d IH]; simpl; [tauto|].
  intros Hnd Hk. inversion Hnd as [|? ? Hk' Hnd']; subst.
  rewrite list_elem_of_In in Hk'.
  destruct (decide (k' = k)) as [->|Hne].
  - f_equal. symmetry. rewrite <- (map_id d) at 2. apply map_ext_in.
    intros [k'' w''] Hin. simpl. destruct (decide (k'' = k)) as [->|]; [|reflexivity].
    exfalso. apply Hk'. change k with (fst (k, w'')). now apply in_map.
  - f_equal. apply IH; [assumption|]. destruct Hk; [contradiction|assumption].
Qed.

Lemma dict_set_keys_present d k v :
  In k (map fst d) -> map fst (dict_set d k v) = map fst d.
Proof.
  induction d as [|[k' w'] d IH]; simpl; [tauto|].
  intros Hk. destruct (decide (k' = k)) as [->|Hne]; simpl; [reflexivity|].
  f_equal. apply IH. destruct Hk; [contradiction|assumption].
Qed.

Lemma dict_get_set_eq d k v : dict_get (dict_set d k v) k = Some v.
Proof.
  induction d as [|[k' w'] d IH]; simpl.
  - now rewrite decide_True.
  - destruct (decide (k' = k)) as [->|Hne]; simpl.
    + now rewrite decide_True.
    + now rewrite decide_False.
Qed.

Lemma dict_set_Forall (P : T * float -> Prop) d k v :
  Forall P d -> (forall k', P (k', v)) -> Forall P (dict_set d k v).
Proof.
  intros Hd Hv. induction Hd as [|[k' w'] d Hx Hd IH]; simpl.
  - constructor; [apply Hv|constructor].
  - destruct (decide (k' = k)); constructor; auto.
Qed.

(** *** Scaling: argument checks and atomicity of failures *)

Lemma imul_raise_unchanged scale self e self' :
  __imul__ scale self = (Raise e, self') -> self' = self.
Proof.
  unfold __imul__. destruct (scale <? 0); [congruence|].
  destruct (scale_loop _ self []); congruence.
Qed.

Lemma itruediv_raise_unchanged scale self e self' :
  __itruediv__ scale self = (Raise e, self') -> self' = self.
Proof.
  unfold __itruediv__. destruct (scale =? 0); [congruence|].
  destruct (scale <? 0); [congruence|].
  destruct (scale_loop _ self []); congruence.
Qed.

Lemma imul_negative scale self :
  (scale <? 0) = true -> __imul__ scale self = (Raise ValueError, self).
Proof. intros Hs. unfold __imul__. now rewrite Hs. Qed.

Lemma itruediv_zero scale self :
  (scale =? 0) = true -> __itruediv__ scale self = (Raise ZeroDivisionError, self).
Proof. intros Hs. unfold __itruediv__. now rewrite Hs. Qed.

Lemma lt0_not_eq0 x : (x <? 0) = true -> (x =? 0) = false.
Proof. to_sf. sf_destruct (Prim2SF x); cbv; congruence. Qed.

Lemma itruediv_negative scale self :
  (scale <? 0) = true -> __itruediv__ scale self = (Raise ValueError, self).
Proof.
  intros Hs. unfold __itruediv__. now rewrite (lt0_not_eq0 _ Hs), Hs.
Qed.

(** *** Scaling: overflow *)

Lemma eq0_not_inf_or_nan x : (x =? 0) = true -> is_inf_or_nan x = false.
Proof.
  intros Hx. apply eq0_sf in Hx as [sg Hx].
  destruct (is_inf_or_nan x) eqn:E; [|reflexivity].
  apply inf_or_nan_sf in E. rewrite Hx in E. destruct E.
Qed.

Lemma in_inf_nan_inf x : (x =? infinity) = true -> in_inf_nan x = true.
Proof. intros Hx. unfold in_inf_nan. now rewrite Hx. Qed.

Lemma scale_loop_overflow (rescale : float -> float) (items : list (T * float)) :
  (forall kw, In kw items -> is_inf_or_nan (rescale (snd kw)) = true ->
              (rescale (snd kw) =? infinity) = true) ->
  (exists kw, In kw items /\ is_inf_or_nan (rescale (snd kw)) = true) ->
  forall scaled_weights : dict,
    scale_loop rescale items scaled_weights = Raise OverflowError.
Proof.
  induction items as [|[k w] items IH]; intros Hinf [kw [Hin Hov]] acc.
  - destruct Hin.
  - simpl. destruct (rescale w =? 0) eqn:Ez.
    + apply IH; [intros; apply Hinf; simpl; auto|].
      destruct Hin as [<-|Hin]; [|eauto].
      simpl in Hov. rewrite (eq0_not_inf_or_nan _ Ez) in Hov. discriminate.
    + destruct (in_inf_nan (rescale w)) eqn:Ei; [reflexivity|].
      apply IH; [intros; apply Hinf; simpl; auto|].
      destruct Hin as [<-|Hin]; [|eauto].
      pose proof (Hinf (k, w) (or_introl eq_refl) Hov) as Hov'. simpl in Hov'.
      rewrite (in_inf_nan_inf _ Hov') in Ei. discriminate.
Qed.

Lemma imul_overflow scale self :
  I1 self -> (0 <=? scale) = true ->
  (exists kw, In kw self /\ is_inf_or_nan (snd kw * scale) = true) ->
  __imul__ scale self = (Raise OverflowError, self).
Proof.
  intros HI Hs Hex. unfold __imul__. rewrite (le0_not_lt0 _ Hs).
  rewrite (scale_loop_overflow (fun weight => weight * scale)); auto.
  intros kw Hin. destruct (I1_In _ _ HI Hin) as [Hp Hf].
  now apply mul_overflow_is_inf.
Qed.

Lemma itruediv_overflow scale self :
  I1 self -> (0 <? scale) = true ->
  (exists kw, In kw self /\ is_inf_or_nan (snd kw / scale) = true) ->
  __itruediv__ scale self = (Raise OverflowError, self).
Proof.
  intros HI Hs Hex. unfold __itruediv__.
  destruct (lt0_not_special _ Hs) as [Hlt Heq]. rewrite Hlt, Heq.
  rewrite (scale_loop_overflow (fun weight => weight / scale)); auto.
  intros kw Hin. destruct (I1_In _ _ HI Hin) as [Hp Hf].
  now apply div_overflow_is_inf.
Qed.

(** *** Scaling: the new mapping *)

Lemma scale_loop_Ok (rescale : float -> float) (items : list (T * float)) :
  forall acc d' : dict,
    NoDup (map fst acc ++ map fst items) ->
    scale_loop rescale items acc = Ok d' ->
    d' = acc ++ scaled rescale items.
Proof.
  induction items as [|[k w] items IH]; intros acc d' Hnd; simpl.
  - intros [= <-]. unfold scaled. simpl. now rewrite app_nil_r.
  - apply NoDup_app in Hnd as (Hacc & Hdisj & Hit).
    apply NoDup_cons in Hit as [Hk Hit].
    assert (Hk_acc : ~ In k (map fst acc)).
    { intros Hin. apply list_elem_of_In in Hin. apply (Hdisj k Hin). now left. }
    unfold scaled. simpl. destruct (rescale w =? 0) eqn:Ez; simpl.
    + apply IH. apply NoDup_app. split; [assumption|split; [|assumption]].
      intros x Hx Hx'. apply (Hdisj x Hx). now right.
    + destruct (in_inf_nan (rescale w)); [discriminate|].
      intros Hloop. apply IH in Hloop.
      * rewrite Hloop, dict_set_absent by assumption.
        now rewrite <- app_assoc.
      * rewrite dict_set_absent, map_app by assumption. simpl.
        rewrite <- app_assoc. simpl.
        apply NoDup_app. split; [assumption|split].
        -- intros x Hx Hx'. apply elem_of_cons in Hx' as [->|Hx'].
           ++ apply Hk_acc. now apply list_elem_of_In.
           ++ apply (Hdisj x Hx). now right.
        -- apply NoDup_cons. split; assumption.
Qed.

Lemma scaled_drops_zero (rescale : float -> float) d k w :
  dict_wf d -> In (k, w) d -> (rescale w =? 0) = true ->
  __contains__ k (scaled rescale d) = false.
Proof.
  intros Hwf Hin Hz. unfold __contains__. apply dict_contains_false.
  unfold scaled. rewrite map_map. simpl. intros Hk.
  apply in_map_iff in Hk as ([k' w'] & Hfst & Hf). simpl in Hfst. subst k'.
  apply filter_In in Hf as [Hin' Hnz]. simpl in Hnz.
  pose proof (In_dict_get _ _ _ Hwf Hin) as E1.
  pose proof (In_dict_get _ _ _ Hwf Hin') as E2.
  rewrite E1 in E2. injection E2 as <-. rewrite Hz in Hnz. discriminate.
Qed.

Lemma imul_Ok scale self self' :
  dict_wf self -> __imul__ scale self = (Ok tt, self') ->
  self' = scaled (fun weight => weight * scale) self.
Proof.
  intros Hwf. unfold __imul__. destruct (scale <? 0); [discriminate|].
  destruct (scale_loop _ self []) as [d'|] eqn:E; [|discriminate].
  intros [= <-]. apply scale_loop_Ok in E; [exact E|exact Hwf].
Qed.

Lemma itruediv_Ok scale self self' :
  dict_wf self -> __itruediv__ scale self = (Ok tt, self') ->
  self' = scaled (fun weight => weight / scale) self.
Proof.
  intros Hwf. unfold __itruediv__. destruct (scale =? 0); [discriminate|].
  destruct (scale <? 0); [discriminate|].
  destruct (scale_loop _ self []) as [d'|] eqn:E; [|discriminate].
  intros [= <-]. apply scale_loop_Ok in E; [exact E|exact Hwf].
Qed.

Lemma scale_loop_all_zero (rescale : float -> float) (items : list (T * float)) :
  (forall kw, In kw items -> (rescale (snd kw) =? 0) = true) ->
  forall acc : dict, scale_loop rescale items acc = Ok acc.
Proof.
  induction items as [|[k w] items IH]; intros Hz acc; simpl; [reflexivity|].
  pose proof (Hz (k, w) (or_introl eq_refl)) as Hkw. simpl in Hkw.
  rewrite Hkw. apply IH. intros; apply Hz; now right.
Qed.

Lemma eq0_not_lt0 x : (x =? 0) = true -> (x <? 0) = false.
Proof. to_sf. sf_destruct (Prim2SF x); cbv; congruence. Qed.

Lemma imul_zero scale self :
  I1 self -> (scale =? 0) = true -> __imul__ scale self = (Ok tt, []).
Proof.
  intros HI Hs. unfold __imul__. rewrite (eq0_not_lt0 _ Hs).
  rewrite scale_loop_all_zero; [reflexivity|].
  intros kw Hin. destruct (I1_In _ _ HI Hin). now apply mul_zero_is_zero.
Qed.

(** *** [add] *)

Lemma add_new key weight self :
  __contains__ key self = false -> (0 <? weight) = true ->
  add key weight self = (Ok tt, dict_set self key weight).
Proof.
  intros Hc Hw. unfold add. destruct (lt0_not_special _ Hw) as [-> ->].
  now rewrite Hc.
Qed.

Lemma add_existing key weight current self :
  dict_get self key = Some current -> (0 <? weight) = true ->
  add key weight self = (Ok tt, dict_set self key (current + weight)).
Proof.
  intros Hg Hw. unfold add. destruct (lt0_not_special _ Hw) as [-> ->].
  unfold __contains__, dict_contains. now rewrite Hg.
Qed.

Lemma add_zero key weight self :
  (weight =? 0) = true -> add key weight self = (Ok tt, self).
Proof. intros Hw. unfold add. now rewrite (eq0_not_lt0 _ Hw), Hw. Qed.

Lemma add_negative key weight self :
  (weight <? 0) = true -> add key weight self = (Raise ValueError, self).
Proof. intros Hw. unfold add. now rewrite Hw. Qed.

Lemma getitem_set key value self :
  __getitem__ key (dict_set self key value) = (Ok value, dict_set self key value).
Proof. unfold __getitem__. now rewrite dict_get_set_eq. Qed.

(** *** [clamp] *)

Lemma map_fst_clamped limit d : map fst (clamped limit d) = map fst d.
Proof. unfold clamped. rewrite map_map. reflexivity. Qed.

Lemma dict_get_map_val (g : float -> float) d k :
  dict_get (map (fun kw => (fst kw, g (snd kw))) d) k = option_map g (dict_get d k).
Proof.
  induction d as [|[k' w'] d IH]; simpl; [reflexivity|].
  destruct (decide (k' = k)); [reflexivity|assumption].
Qed.

Lemma clamp_loop_spec limit (ks : list T) :
  forall d, dict_wf d -> (forall k, In k ks -> In k (map fst d)) ->
    clamp_loop ks limit d =
    map (fun kw => if decide (fst kw ∈ ks) then (fst kw, limit) else kw) d.
Proof.
  induction ks as [|k ks IH]; intros d Hwf Hsub; simpl.
  - rewrite <- (map_id d) at 1. apply map_ext. intros kw. reflexivity.
  - rewrite dict_set_present by (auto; apply Hsub; now left).
    rewrite IH.
    + rewrite map_map. apply map_ext. intros [k' w']. simpl.
      destruct (decide (k' = k)) as [->|Hne]; simpl.
      * rewrite (decide_True (P := k ∈ k :: ks)) by now left.
        destruct (decide (k ∈ ks)); reflexivity.
      * destruct (decide (k' ∈ ks)) as [Hin|Hnin].
        -- rewrite decide_True; [reflexivity|now right].
        -- rewrite decide_False; [reflexivity|].
           intros Hc. apply elem_of_cons in Hc as [?|?]; contradiction.
    + unfold dict_wf. rewrite map_map. simpl.
      erewrite map_ext; [exact Hwf|]. intros [k' w']. simpl.
      destruct (decide (k' = k)); reflexivity.
    + intros k' Hk'. rewrite map_map. simpl.
      erewrite map_ext; [apply Hsub; now right|]. intros [k'' w'']. simpl.
      destruct (decide (k'' = k)); reflexivity.
Qed.

Lemma clamp_Ok limit self :
  dict_wf self -> (limit =? 0) = false -> (limit <? 0) = false ->
  clamp limit self = (Ok tt, clamped limit self).
Proof.
  intros Hwf H0 Hneg. unfold clamp. rewrite H0, Hneg. f_equal.
  rewrite clamp_loop_spec; [|assumption|].
  - unfold clamped. apply map_ext_in. intros [k w] Hin. simpl.
    unfold clamp_weight. destruct (limit <? w) eqn:Hlt.
    + rewrite decide_True; [reflexivity|].
      apply list_elem_of_In. change k with (fst (k, w)). apply in_map.
      apply filter_In. split; assumption.
    + rewrite decide_False; [reflexivity|].
      intros Hk. apply list_elem_of_In, in_map_iff in Hk as ([k' w'] & Hfst & Hf).
      simpl in Hfst. subst k'. apply filter_In in Hf as [Hin' Hlt']. simpl in Hlt'.
      pose proof (In_dict_get _ _ _ Hwf Hin) as E1.
      pose proof (In_dict_get _ _ _ Hwf Hin') as E2.
      rewrite E1 in E2. injection E2 as <-. congruence.
  - intros k Hk. apply in_map_iff in Hk as (kw & <- & Hf).
    apply filter_In in Hf as [Hin _]. now apply in_map.
Qed.

Lemma clamp_weight_idem limit w :
  clamp_weight limit (clamp_weight limit w) = clamp_weight limit w.
Proof.
  unfold clamp_weight. destruct (limit <? w) eqn:E.
  - now rewrite ltb_irrefl.
  - now rewrite E.
Qed.

Lemma clamped_idem limit d : clamped limit (clamped limit d) = clamped limit d.
Proof.
  unfold clamped. rewrite map_map. apply map_ext. intros [k w]. simpl.
  now rewrite clamp_weight_idem.
Qed.

(** *** [keys]: the sort *)

Lemma insert_desc_perm (x : T * float) l : Permutation (insert_desc x l) (x :: l).
Proof.
  induction l as [|y l IH]; simpl; [reflexivity|].
  destruct (snd x <? snd y); [|reflexivity].
  rewrite IH. apply perm_swap.
Qed.

Lemma sorted_desc_perm (l : list (T * float)) : Permutation (sorted_desc l) l.
Proof.
  induction l as [|x l IH]; simpl; [reflexivity|].
  rewrite insert_desc_perm. now constructor.
Qed.

Lemma ltb_leb x y : (x <? y) = true -> (x <=? y) = true.
Proof.
  to_sf. unfold SFltb, SFleb. destruct (SFcompare _ _) as [[]|]; congruence.
Qed.

Lemma insert_desc_Forall (P : T * float -> Prop) x l :
  P x -> Forall P l -> Forall P (insert_desc x l).
Proof.
  intros Hx Hl. eapply Permutation_Forall; [symmetry; apply insert_desc_perm|].
  now constructor.
Qed.

Lemma insert_desc_sorted (x : T * float) l :
  is_nan (snd x) = false -> no_nan l ->
  StronglySorted weight_ge l -> StronglySorted weight_ge (insert_desc x l).
Proof.
  intros Hx Hnan Hs. induction Hs as [|y l Hs IH Hy]; simpl.
  - repeat constructor.
  - apply Forall_cons in Hnan as [Hynan Hnan].
    destruct (snd x <? snd y) eqn:E.
    + constructor; [auto|]. apply insert_desc_Forall; [|assumption].
      unfold weight_ge. now apply ltb_leb.
    + assert (Hxy : weight_ge x y) by (unfold weight_ge; now apply ltb_false_leb).
      constructor; [now constructor|]. constructor; [assumption|].
      eapply Forall_impl; [exact Hy|]. intros z Hz. unfold weight_ge in *.
      eapply leb_trans; eassumption.
Qed.

Lemma sorted_desc_no_nan l : no_nan l -> no_nan (sorted_desc l).
Proof.
  intros Hl. eapply Permutation_Forall; [symmetry; apply sorted_desc_perm|assumption].
Qed.

Lemma sorted_desc_sorted l : no_nan l -> StronglySorted weight_ge (sorted_desc l).
Proof.
  induction l as [|x l IH]; intros Hnan; simpl; [constructor|].
  apply Forall_cons in Hnan as [Hx Hnan].
  apply insert_desc_sorted; auto using sorted_desc_no_nan.
Qed.

(** Stability: among the entries of one weight, the order is kept. *)
Lemma insert_desc_stable v (x : T * float) l :
  List.filter (fun kw => snd kw =? v) (insert_desc x l) =
  List.filter (fun kw => snd kw =? v) (x :: l).
Proof.
  induction l as [|y l IH]; [reflexivity|].
  simpl insert_desc. destruct (snd x <? snd y) eqn:E; [|reflexivity].
  simpl. simpl in IH. rewrite IH.
  destruct (snd x =? v) eqn:Ex, (snd y =? v) eqn:Ey; try reflexivity.
  exfalso. eapply ltb_eqb_class; eassumption.
Qed.

Lemma sorted_desc_stable v (l : list (T * float)) :
  List.filter (fun kw => snd kw =? v) (sorted_desc l) =
  List.filter (fun kw => snd kw =? v) l.
Proof.
  induction l as [|x l IH]; [reflexivity|].
  simpl sorted_desc. rewrite insert_desc_stable. simpl. now rewrite IH.
Qed.

Lemma StronglySorted_lookup {A} (R : A -> A -> Prop) (l : list A) :
  StronglySorted R l ->
  forall i j x y, (i < j)%nat -> l !! i = Some x -> l !! j = Some y -> R x y.
Proof.
  induction 1 as [|a l Hs IH Ha]; intros i j x y Hij Hi Hj; [discriminate|].
  destruct j as [|j]; [lia|]. simpl in Hj.
  destruct i as [|i]; simpl in Hi.
  - injection Hi as <-. rewrite List.Forall_forall in Ha. apply Ha.
    apply list_elem_of_In. eapply list_elem_of_lookup_2; eassumption.
  - eapply IH; [|eassumption..]. lia.
Qed.

(** *** [keys]: what a caller observes *)

Lemma lookup_map {A B} (f : A -> B) (l : list A) (i : nat) :
  map f l !! i = option_map f (l !! i).
Proof.
  revert i. induction l as [|a l IH]; intros [|i]; simpl; auto.
Qed.

Lemma filter_map_fst (p : T -> bool) (l : list (T * float)) :
  List.filter p (map fst l) = map fst (List.filter (fun kw => p (fst kw)) l).
Proof.
  induction l as [|[k w] l IH]; simpl; [reflexivity|].
  destruct (p k); simpl; now rewrite IH.
Qed.

Lemma has_weight_entry self v kw :
  dict_wf self -> In kw self -> has_weight self v (fst kw) = (snd kw =? v).
Proof.
  intros Hwf Hin. destruct kw as [k w]. unfold has_weight. simpl.
  now rewrite (In_dict_get _ _ _ Hwf Hin).
Qed.

Lemma keys_perm self : Permutation (keys self) (map fst self).
Proof. unfold keys. apply Permutation_map, sorted_desc_perm. Qed.

Lemma keys_sorted self : dict_wf self -> no_nan self -> keys_non_increasing self.
Proof.
  intros Hwf Hnan i j ki kj wi wj Hij Hi Hj Hgi Hgj.
  unfold keys in Hi, Hj. rewrite lookup_map in Hi, Hj.
  destruct (sorted_desc self !! i) as [[ki' wi']|] eqn:Ei; [|discriminate].
  destruct (sorted_desc self !! j) as [[kj' wj']|] eqn:Ej; [|discriminate].
  simpl in Hi, Hj. injection Hi as ->. injection Hj as ->.
  pose proof (StronglySorted_lookup _ _ (sorted_desc_sorted _ Hnan)
                _ _ _ _ Hij Ei Ej) as Hge.
  unfold weight_ge in Hge. simpl in Hge.
  assert (Hin : forall n k w, sorted_desc self !! n = Some (k, w) ->
                              dict_get self k = Some w).
  { intros n k w E. apply In_dict_get; [assumption|].
    eapply Permutation_in; [apply sorted_desc_perm|].
    apply list_elem_of_In. eapply list_elem_of_lookup_2; eassumption. }
  rewrite (Hin _ _ _ Ei) in Hgi. rewrite (Hin _ _ _ Ej) in Hgj.
  injection Hgi as <-. injection Hgj as <-. exact Hge.
Qed.

Lemma keys_stable_wf self : dict_wf self -> keys_stable self.
Proof.
  intros Hwf v. unfold keys. rewrite !filter_map_fst. f_equal.
  rewrite (filter_ext_in _ (fun kw => snd kw =? v) (sorted_desc self)).
  - rewrite (filter_ext_in _ (fun kw => snd kw =? v) self).
    + apply sorted_desc_stable.
    + intros kw Hin. now apply has_weight_entry.
  - intros kw Hin. apply has_weight_entry; [assumption|].
    eapply Permutation_in; [apply sorted_desc_perm|assumption].
Qed.

(** *** The store *)

Lemma weights_insert h (r : ref) d :
  (r < length h)%nat -> weights (<[r := d]> h) r = d.
Proof.
  intros Hr. unfold weights, heap, dict, ref in *.
  now rewrite list_lookup_insert_eq.
Qed.

Lemma call_Ok {A} (self : ref) (m : method A) h a d :
  m (weights h self) = (Ok a, d) -> call self m h = (Ok a, <[self := d]> h).
Proof. intros E. unfold call. now rewrite E. Qed.

(** *** [update] with [self] among the arguments *)

Lemma map_fst_doubled_on done d : map fst (doubled_on done d) = map fst d.
Proof.
  unfold doubled_on. rewrite map_map. apply map_ext. intros [k w]. simpl.
  destruct (decide (k ∈ done)); reflexivity.
Qed.

Lemma dict_get_doubled_on done d k w :
  k ∉ done -> dict_get d k = Some w -> dict_get (doubled_on done d) k = Some w.
Proof.
  intros Hk. unfold doubled_on.
  induction d as [|[k' w'] d IH]; simpl; [discriminate|].
  destruct (decide (k' ∈ done)) as [Hin|Hnin]; simpl;
    destruct (decide (k' = k)) as [->|Hne]; auto; contradiction.
Qed.

Lemma doubled_on_step done d k w :
  dict_wf d -> dict_get d k = Some w ->
  dict_set (doubled_on done d) k (w + w) = doubled_on (k :: done) d.
Proof.
  intros Hwf Hg. rewrite dict_set_present.
  - unfold doubled_on. rewrite map_map. apply map_ext_in. intros [k' w'] Hin. simpl.
    destruct (decide (k' = k)) as [->|Hne].
    + pose proof (In_dict_get _ _ _ Hwf Hin) as E. rewrite Hg in E. injection E as <-.
      rewrite (decide_True (P := k ∈ k :: done)) by now left.
      destruct (decide (k ∈ done)); simpl; now rewrite decide_True.
    + destruct (decide (k' ∈ done)) as [Hd|Hd]; simpl.
      * rewrite decide_False by assumption. rewrite decide_True; [reflexivity|now right].
      * rewrite decide_False by assumption. rewrite decide_False; [reflexivity|].
        intros Hc. apply elem_of_cons in Hc as [?|?]; contradiction.
  - unfold dict_wf. now rewrite map_fst_doubled_on.
  - rewrite map_fst_doubled_on. change k with (fst (k, w)).
    apply in_map. now apply dict_get_In.
Qed.

Lemma update_loop_self (self : ref) (d0 : @dict T) :
  dict_wf d0 -> I1 d0 ->
  forall (ks done : list T) h,
    (self < length h)%nat ->
    NoDup ks -> (forall k, k ∈ ks -> k ∉ done) ->
    (forall k, In k ks -> In k (map fst d0)) ->
    weights h self = doubled_on done d0 ->
    update_loop self self ks h =
      (Ok tt, <[self := doubled_on (rev ks ++ done) d0]> h).
Proof.
  intros Hwf HI. induction ks as [|k ks IH]; intros done h Hself Hnd Hfresh Hsub Hw.
  - simpl. f_equal. symmetry. rewrite <- Hw. clear Hw.
    unfold weights, heap, dict, ref in *.
    destruct (lookup_lt_is_Some_2 h self Hself) as [d Hd].
    rewrite Hd. simpl. now apply list_insert_id.
  - apply NoDup_cons in Hnd as [Hk Hnd].
    assert (Hkin : In k (map fst d0)) by (apply Hsub; now left).
    apply in_map_iff in Hkin as ([k' w] & Hfst & Hin). simpl in Hfst. subst k'.
    pose proof (In_dict_get _ _ _ Hwf Hin) as Hg.
    destruct (I1_In _ _ HI Hin) as [Hpos _]. simpl in Hpos.
    assert (Hkd : k ∉ done) by (apply Hfresh; now left).
    simpl. unfold __getitem__. rewrite Hw, (dict_get_doubled_on _ _ _ _ Hkd Hg).
    rewrite (call_Ok self _ h tt (doubled_on (k :: done) d0)).
    + rewrite (IH (k :: done)).
      * unfold heap, dict, ref in *.
        rewrite list_insert_insert_eq. rewrite <- app_assoc. reflexivity.
      * unfold heap, dict, ref in *. now rewrite length_insert.
      * assumption.
      * intros k' Hk' Hc. apply elem_of_cons in Hc as [->|Hc]; [contradiction|].
        apply (Hfresh k'); [now right|assumption].
      * intros k' Hk'. apply Hsub. now right.
      * now apply weights_insert.
    + rewrite Hw. rewrite (add_existing k w w).
      * now rewrite (doubled_on_step _ _ _ _ Hwf Hg).
      * now apply dict_get_doubled_on.
      * assumption.
Qed.

Lemma update_self (self : ref) h :
  (self < length h)%nat -> dict_wf (weights h self) -> I1 (weights h self) ->
  update self [WeightedSet self] h =
    (Ok tt, <[self := doubled (weights h self)]> h).
Proof.
  intros Hself Hwf HI. simpl.
  rewrite (update_loop_self self (weights h self) Hwf HI _ []).
  - f_equal. f_equal. unfold doubled_on, doubled. apply map_ext_in.
    intros [k w] Hin. simpl. rewrite decide_True; [reflexivity|].
    rewrite app_nil_r. apply list_elem_of_In. apply -> in_rev.
    eapply Permutation_in; [symmetry; apply keys_perm|].
    change k with (fst (k, w)). now apply in_map.
  - assumption.
  - rewrite keys_perm. exact Hwf.
  - intros k _. apply not_elem_of_nil.
  - intros k Hk. eapply Permutation_in; [apply keys_perm|assumption].
  - unfold doubled_on. rewrite <- (map_id (weights h self)) at 1.
    apply map_ext. intros kw. reflexivity.
Qed.

(** *** [update]: arguments are checked one at a time *)

Lemma update_app (self : ref) (pre post : list pyobj) h :
  update self (pre ++ post) h =
  match update self pre h with
  | (Ok _, h1) => update self post h1
  | (Raise e, h1) => (Raise e, h1)
  end.
Proof.
  revert h. induction pre as [|o pre IH]; intros h; simpl; [reflexivity|].
  destruct o as [ws|]; [|reflexivity].
  destruct (update_loop self ws _ h) as [[[]|e] h']; [apply IH|reflexivity].
Qed.

Lemma update_type_error (self : ref) (pre post : list pyobj) h h1 :
  update self pre h = (Ok tt, h1) ->
  update self (pre ++ NotWeightedSet :: post) h = (Raise TypeError, h1).
Proof. intros E. rewrite update_app, E. reflexivity. Qed.

(** *** What every public operation maintains *)

Lemma dict_set_wf d k v : dict_wf d -> dict_wf (dict_set d k v).
Proof.
  intros Hwf. unfold dict_wf in *.
  destruct (decide (k ∈ map fst d)) as [Hin|Hnin].
  - rewrite dict_set_keys_present; [assumption|now apply list_elem_of_In].
  - rewrite dict_set_absent, map_app by (now rewrite <- list_elem_of_In).
    simpl. apply NoDup_app. split; [assumption|split].
    + intros x Hx Hx'. apply list_elem_of_singleton in Hx'. now subst.
    + apply NoDup_singleton.
Qed.

Lemma dict_set_inv d k v : dict_inv d -> positive_or_nan v -> dict_inv (dict_set d k v).
Proof.
  intros [Hwf Hpos] Hv. split; [now apply dict_set_wf|].
  apply dict_set_Forall; auto.
Qed.

Lemma dict_inv_nil : dict_inv ([] : @dict T).
Proof. split; [apply NoDup_nil_2|constructor]. Qed.

Lemma dict_inv_get d k w : dict_inv d -> dict_get d k = Some w -> positive_or_nan w.
Proof.
  intros [_ Hpos] Hg. apply dict_get_In in Hg.
  unfold no_nonpositive in Hpos. rewrite List.Forall_forall in Hpos.
  exact (Hpos _ Hg).
Qed.

Lemma add_inv key weight self : dict_inv self -> dict_inv (snd (add key weight self)).
Proof.
  intros Hinv. unfold add.
  destruct (weight <? 0) eqn:Elt; [assumption|].
  destruct (weight =? 0) eqn:Eeq; [assumption|].
  pose proof (fresh_not_le0 _ Elt Eeq) as Hw.
  destruct (__contains__ key self); simpl.
  - destruct (dict_get self key) as [current|] eqn:Eg; simpl; [|assumption].
    apply dict_set_inv; [assumption|].
    apply add_not_le0; [|assumption]. eapply dict_inv_get; eassumption.
  - now apply dict_set_inv.
Qed.

Lemma scale_loop_inv (rescale : float -> float) (items : list (T * float)) :
  (forall w, positive_or_nan w -> (rescale w =? 0) = false ->
             positive_or_nan (rescale w)) ->
  no_nonpositive items ->
  forall acc d' : dict,
    dict_inv acc -> scale_loop rescale items acc = Ok d' -> dict_inv d'.
Proof.
  intros Hres Hitems. induction Hitems as [|[k w] items Hw Hitems IH];
    intros acc d' Hacc; simpl.
  - now intros [= <-].
  - destruct (rescale w =? 0) eqn:Ez; [now apply IH|].
    destruct (in_inf_nan (rescale w)); [discriminate|].
    apply IH. apply dict_set_inv; auto.
Qed.

Lemma imul_inv scale self : dict_inv self -> dict_inv (snd (__imul__ scale self)).
Proof.
  intros Hinv. unfold __imul__. destruct (scale <? 0) eqn:Elt; [assumption|].
  destruct (scale_loop _ self []) as [d'|] eqn:E; simpl; [|assumption].
  eapply scale_loop_inv; [| |apply dict_inv_nil|exact E].
  - intros w Hw Hz. now apply mul_not_le0.
  - apply Hinv.
Qed.

Lemma itruediv_inv scale self : dict_inv self -> dict_inv (snd (__itruediv__ scale self)).
Proof.
  intros Hinv. unfold __itruediv__. destruct (scale =? 0) eqn:Eeq; [assumption|].
  destruct (scale <? 0) eqn:Elt; [assumption|].
  destruct (scale_loop _ self []) as [d'|] eqn:E; simpl; [|assumption].
  eapply scale_loop_inv; [| |apply dict_inv_nil|exact E].
  - intros w Hw Hz. now apply div_not_le0.
  - apply Hinv.
Qed.

Lemma clamp_loop_inv (ks : list T) limit :
  positive_or_nan limit -> forall d, dict_inv d -> dict_inv (clamp_loop ks limit d).
Proof.
  intros Hl. induction ks as [|k ks IH]; intros d Hd; simpl; [assumption|].
  apply IH. now apply dict_set_inv.
Qed.

Lemma clamp_inv limit self : dict_inv self -> dict_inv (snd (clamp limit self)).
Proof.
  intros Hinv. unfold clamp. destruct (limit =? 0) eqn:Eeq; [assumption|].
  destruct (limit <? 0) eqn:Elt; [assumption|]. simpl.
  apply clamp_loop_inv; [|assumption]. now apply fresh_not_le0.
Qed.

Lemma dict_update_inv (other : @dict T) :
  no_nonpositive other -> forall d, dict_inv d -> dict_inv (dict_update d other).
Proof.
  induction 1 as [|[k w] other Hw Hother IH]; intros d Hd; simpl; [assumption|].
  apply IH. now apply dict_set_inv.
Qed.

Lemma weights_inv h (r : ref) : heap_inv h -> dict_inv (weights h r).
Proof.
  intros Hh. unfold weights, heap, dict, ref in *.
  destruct (h !! r) as [d|] eqn:E; simpl; [|apply dict_inv_nil].
  unfold heap_inv in Hh. rewrite List.Forall_forall in Hh. apply Hh.
  apply list_elem_of_In. eapply list_elem_of_lookup_2; eassumption.
Qed.

Lemma insert_inv h (r : ref) d : heap_inv h -> dict_inv d -> heap_inv (<[r := d]> h).
Proof. intros Hh Hd. unfold heap_inv, heap, dict, ref in *. now apply Forall_insert. Qed.

Lemma call_inv {A} (self : ref) (m : method A) h :
  (forall d, dict_inv d -> dict_inv (snd (m d))) ->
  heap_inv h -> heap_inv (snd (call self m h)).
Proof.
  intros Hm Hh. unfold call.
  pose proof (Hm _ (weights_inv h self Hh)) as Hd.
  destruct (m (weights h self)) as [res w]. simpl in *. now apply insert_inv.
Qed.

Lemma new_inv h : heap_inv h -> heap_inv (snd (new h)).
Proof.
  intros Hh. unfold new, heap_inv. simpl. apply Forall_app. split; [assumption|].
  constructor; [apply dict_inv_nil|constructor].
Qed.

Lemma copy_inv (self : ref) h : heap_inv h -> heap_inv (snd (copy self h)).
Proof.
  intros Hh. unfold copy. simpl. pose proof (new_inv h Hh) as Hn. simpl in Hn.
  apply insert_inv; [assumption|].
  apply dict_update_inv; [apply weights_inv|apply weights_inv]; assumption.
Qed.

Lemma update_loop_inv (self ws : ref) (ks : list T) :
  forall h, heap_inv h -> heap_inv (snd (update_loop self ws ks h)).
Proof.
  induction ks as [|k ks IH]; intros h Hh; simpl; [assumption|].
  unfold __getitem__. destruct (dict_get (weights h ws) k) as [w|]; [|assumption].
  pose proof (call_inv self (add k w) h (add_inv k w) Hh) as Hc.
  destruct (call self (add k w) h) as [[[]|e] h']; simpl in Hc; [now apply IH|assumption].
Qed.

Lemma update_inv (self : ref) (others : list pyobj) :
  forall h, heap_inv h -> heap_inv (snd (update self others h)).
Proof.
  induction others as [|[ws|] others IH]; intros h Hh; simpl; try assumption.
  pose proof (update_loop_inv self ws (keys (weights h ws)) h Hh) as Hl.
  destruct (update_loop self ws _ h) as [[[]|e] h']; simpl in Hl; [now apply IH|assumption].
Qed.

(** *** [update] from weighted sets does not raise *)

Lemma not_le0_split w :
  positive_or_nan w -> (w <? 0) = false /\ (w =? 0) = false.
Proof.
  unfold positive_or_nan. to_sf. sf_destruct (Prim2SF w); cbv; intuition congruence.
Qed.

Lemma dict_set_keys_mono d k k' v :
  In k (map fst d) -> In k (map fst (dict_set d k' v)).
Proof.
  intros Hk. destruct (decide (k' ∈ map fst d)) as [Hin|Hnin].
  - rewrite dict_set_keys_present; [assumption|now apply list_elem_of_In].
  - rewrite dict_set_absent, map_app by (now rewrite <- list_elem_of_In).
    apply in_or_app. now left.
Qed.

Lemma add_keys_mono key weight self k :
  In k (map fst self) -> In k (map fst (snd (add key weight self))).
Proof.
  intros Hk. unfold add.
  destruct (weight <? 0); [assumption|]. destruct (weight =? 0); [assumption|].
  destruct (__contains__ key self); simpl; [|now apply dict_set_keys_mono].
  destruct (dict_get self key); simpl; [now apply dict_set_keys_mono|assumption].
Qed.

Lemma add_returns key weight self :
  positive_or_nan weight -> fst (add key weight self) = Ok tt.
Proof.
  intros Hw. destruct (not_le0_split _ Hw) as [Hlt Heq].
  unfold add, __contains__, dict_contains. rewrite Hlt, Heq.
  destruct (dict_get self key); reflexivity.
Qed.

Lemma weights_call_mono {A} (self ws : ref) (m : method A) h k :
  (forall d, In k (map fst d) -> In k (map fst (snd (m d)))) ->
  In k (map fst (weights h ws)) ->
  In k (map fst (weights (snd (call self m h)) ws)).
Proof.
  intros Hm Hk. unfold call.
  pose proof (Hm (weights h self)) as Hd.
  destruct (m (weights h self)) as [res d']. simpl in *.
  destruct (decide (self = ws)) as [->|Hne].
  - destruct (decide (ws < length h)%nat) as [Hlt|Hge].
    + rewrite weights_insert by assumption. auto.
    + unfold heap, dict, ref in *. rewrite list_insert_ge by lia. assumption.
  - unfold weights, heap, dict, ref in *.
    now rewrite list_lookup_insert_ne.
Qed.

Lemma update_loop_returns (self ws : ref) (ks : list T) :
  forall h, heap_inv h ->
    (forall k, In k ks -> In k (map fst (weights h ws))) ->
    fst (update_loop self ws ks h) = Ok tt.
Proof.
  induction ks as [|k ks IH]; intros h Hh Hks; simpl; [reflexivity|].
  unfold __getitem__.
  destruct (dict_get (weights h ws) k) as [w|] eqn:Eg.
  - pose proof (dict_inv_get _ _ _ (weights_inv h ws Hh) Eg) as Hw.
    pose proof (call_inv self (add k w) h (add_inv k w) Hh) as Hc.
    assert (Hmono : forall k', In k' ks ->
              In k' (map fst (weights (snd (call self (add k w) h)) ws))).
    { intros k' Hk'. apply weights_call_mono.
      - intros d. apply add_keys_mono.
      - apply Hks. now right. }
    assert (Hres : fst (call self (add k w) h) = Ok tt).
    { unfold call. pose proof (add_returns k w (weights h self) Hw) as Ha.
      destruct (add k w (weights h self)); assumption. }
    destruct (call self (add k w) h) as [[[]|e] h']; simpl in *;
      [now apply IH|discriminate].
  - exfalso. apply dict_get_None in Eg. apply Eg, Hks. now left.
Qed.

Lemma update_returns (self : ref) (others : list pyobj) :
  forall h, heap_inv h -> forallb is_weighted_set others = true ->
    fst (update self others h) = Ok tt.
Proof.
  induction others as [|[ws|] others IH]; intros h Hh Hws; simpl in *;
    [reflexivity| |discriminate].
  pose proof (update_loop_inv self ws (keys (weights h ws)) h Hh) as Hl.
  pose proof (update_loop_returns self ws (keys (weights h ws)) h Hh) as Hr.
  destruct (update_loop self ws _ h) as [[[]|e] h']; simpl in *.
  - now apply IH.
  - discriminate Hr. intros k Hk.
    eapply Permutation_in; [apply keys_perm|assumption].
Qed.

(** *** Reachable stores *)

Lemma run_inv o h : heap_inv h -> heap_inv (run o h).
Proof.
  intros Hh. destruct o; simpl.
  - now apply new_inv.
  - apply call_inv; [apply add_inv|assumption].
  - apply call_inv; [apply imul_inv|assumption].
  - apply call_inv; [apply itruediv_inv|assumption].
  - apply call_inv; [apply clamp_inv|assumption].
  - now apply copy_inv.
  - now apply update_inv.
Qed.

Lemma reachable_inv h : reachable h -> heap_inv h.
Proof.
  induction 1 as [|h o Hr IH Hok]; [constructor|now apply run_inv].
Qed.

(** *** Scaling returns unless a weight overflows *)

Lemma eqb_nan_false x : (x =? nan) = false.
Proof.
  rewrite FloatAxioms.eqb_spec. change (Prim2SF nan) with S754_nan.
  sf_destruct (Prim2SF x); reflexivity.
Qed.

Lemma not_inf_or_nan_in_inf_nan x : is_inf_or_nan x = false -> in_inf_nan x = false.
Proof.
  intros Hx. unfold in_inf_nan. rewrite eqb_nan_false, orb_false_r.
  destruct (x =? infinity) eqn:E; [|reflexivity].
  apply eq_inf_sf in E. assert (Hc : is_inf_or_nan x = true).
  { apply inf_or_nan_sf. now rewrite E. }
  congruence.
Qed.

(** Zero products are skipped, not reported: without an infinite or NaN
    product the loop runs to its end. *)
Lemma scale_loop_returns (rescale : float -> float) items :
  (forall kw, In kw items -> is_inf_or_nan (rescale (snd kw)) = false) ->
  forall acc : @dict T, exists d', scale_loop rescale items acc = Ok d'.
Proof.
  induction items as [|[k w] items IH]; intros Hfin acc; simpl; [eauto|].
  destruct (rescale w =? 0).
  - apply IH. intros kw Hin. apply Hfin. now right.
  - pose proof (Hfin (k, w) (or_introl eq_refl)) as Hw. simpl in Hw.
    rewrite (not_inf_or_nan_in_inf_nan _ Hw).
    apply IH. intros kw Hin. apply Hfin. now right.
Qed.

Lemma imul_returns scale self :
  (0 <=? scale) = true ->
  (forall kw, In kw self -> is_inf_or_nan (snd kw * scale) = false) ->
  exists self', __imul__ scale self = (Ok tt, self').
Proof.
  intros Hs Hfin. unfold __imul__. rewrite (le0_not_lt0 _ Hs).
  destruct (scale_loop_returns (fun weight => weight * scale) self Hfin [])
    as [d' ->]. eauto.
Qed.

Lemma itruediv_returns scale self :
  (0 <? scale) = true ->
  (forall kw, In kw self -> is_inf_or_nan (snd kw / scale) = false) ->
  exists self', __itruediv__ scale self = (Ok tt, self').
Proof.
  intros Hs Hfin. unfold __itruediv__.
  destruct (lt0_not_special _ Hs) as [-> ->].
  destruct (scale_loop_returns (fun weight => weight / scale) self Hfin [])
    as [d' ->]. eauto.
Qed.

End Properties.

(** ** The statements of the specification *)

Open Scope string_scope.
Open Scope float_scope.

(** C1, as stated, fails: a set reachable by public operations holds a
    weight that is not finite, since [add] accepts plus infinity. *)
Lemma C1_counterexample :
  reachable heap_inf /\ heap_inf = [[("a", infinity)]] /\ ~ Forall I1 heap_inf.
Proof.
  split; [|split].
  - unfold heap_inf. repeat (apply reachable_run; [|reflexivity]). apply reachable_empty.
  - reflexivity.
  - intros HI. apply Forall_cons in HI as [HI _].
    apply Forall_cons in HI as [HI _]. vm_compute in HI. discriminate.
Qed.

(** C1, amended: in every store reachable from the empty one by the
    public operations ([WeightedSet()], [add], [*=], [/=], [clamp], [copy],
    [update], returning or raising), every dictionary has one entry per
    key and no entry whose weight is [<= 0]; [add] raises [ValueError] on
    a negative weight and ignores a zero weight, the mapping staying as it
    was. *)
Theorem C1_reachable_weights_not_nonpositive :
  (forall (T : Type) `{EqDecision T} (h : @heap T),
      reachable h ->
      forall (r : ref) (d : @dict T), h !! r = Some d ->
        dict_wf d /\
        forall key w, dict_get d key = Some w -> (w <=? 0) = false) /\
  (forall (T : Type) `{EqDecision T} (self : @dict T) (key : T) (weight : float),
      (weight <? 0) = true -> add key weight self = (Raise ValueError, self)) /\
  (forall (T : Type) `{EqDecision T} (self : @dict T) (key : T) (weight : float),
      (weight =? 0) = true -> add key weight self = (Ok tt, self)).
Proof.
  split; [|split].
  - intros T ? h Hr r d Hd.
    pose proof (reachable_inv h Hr) as Hinv.
    pose proof (weights_inv h r Hinv) as Hw.
    unfold weights in Hw. unfold heap, dict, ref in *. rewrite Hd in Hw. simpl in Hw.
    split; [apply Hw|]. intros key w Hg. eapply dict_inv_get; eassumption.
  - intros T ? self key weight. apply add_negative.
  - intros T ? self key weight. apply add_zero.
Qed.

Lemma C1_witness :
  reachable heap_inf /\ dict_wf [("a", infinity)] /\ (infinity <=? 0) = false.
Proof.
  assert (Hr : reachable heap_inf).
  { unfold heap_inf. repeat (apply reachable_run; [|reflexivity]). apply reachable_empty. }
  destruct C1_reachable_weights_not_nonpositive as [Hgen _].
  destruct (Hgen string _ heap_inf Hr 0%nat [("a", infinity)] eq_refl) as [Hwf Hpos].
  split; [exact Hr|split; [exact Hwf|]].
  apply (Hpos "a"). reflexivity.
Defined.

(** The NaN branch of the overflow test does not fire: a NaN factor passes
    the sign check and the NaN products are stored. *)
Example scaling_by_nan_is_stored :
  __imul__ nan [("a", 1)] = (Ok tt, [("a", nan)]) /\
  __itruediv__ nan [("a", 1)] = (Ok tt, [("a", nan)]).
Proof. split; reflexivity. Qed.

(** C2: on a set satisfying I1, a scaling by a non-negative factor, or by
    the inverse of a positive divisor, that makes some weight infinite or
    NaN raises [OverflowError]; so does [add("a", 1e200)] followed by
    [/= 1e-200]. *)
Theorem C2_scaling_overflow :
  (forall (T : Type) `{EqDecision T} (self : @dict T) (scale : float),
      I1 self -> (0 <=? scale) = true ->
      (exists kw, In kw self /\ is_inf_or_nan (snd kw * scale) = true) ->
      __imul__ scale self = (Raise OverflowError, self)) /\
  (forall (T : Type) `{EqDecision T} (self : @dict T) (scale : float),
      I1 self -> (0 <? scale) = true ->
      (exists kw, In kw self /\ is_inf_or_nan (snd kw / scale) = true) ->
      __itruediv__ scale self = (Raise OverflowError, self)) /\
  (exists self1 : @dict string,
      add "a" 1e200 __init__ = (Ok tt, self1) /\
      __itruediv__ 1e-200 self1 = (Raise OverflowError, self1)).
Proof.
  split; [|split].
  - intros T ? self scale. apply imul_overflow.
  - intros T ? self scale. apply itruediv_overflow.
  - eexists. split; reflexivity.
Qed.

Lemma C2_witness :
  I1 [("a", 1e200)] /\ (0 <=? 1e200) = true /\
  is_inf_or_nan (1e200 * 1e200) = true /\
  __imul__ 1e200 [("a", 1e200)] = (Raise OverflowError, [("a", 1e200)]).
Proof.
  assert (HI : I1 [("a", 1e200)]) by (repeat constructor).
  split; [exact HI|]. split; [reflexivity|]. split; [reflexivity|].
  destruct C2_scaling_overflow as [Hmul _].
  apply (Hmul string _ [("a", 1e200)] 1e200 HI eq_refl).
  exists ("a", 1e200). split; [now left|reflexivity].
Defined.

(** C3: when [*=] or [/=] raises [OverflowError], the mapping is the one
    before the call. *)
Theorem C3_overflow_atomic :
  forall (T : Type) `{EqDecision T} (self self' : @dict T) (scale : float),
    (__imul__ scale self = (Raise OverflowError, self') -> self' = self) /\
    (__itruediv__ scale self = (Raise OverflowError, self') -> self' = self).
Proof.
  intros T ? self self' scale. split.
  - apply imul_raise_unchanged.
  - apply itruediv_raise_unchanged.
Qed.

Lemma C3_witness :
  __imul__ 1e200 [("b", 1e-200); ("a", 1e200)] =
    (Raise OverflowError, [("b", 1e-200); ("a", 1e200)]) /\
  [("b", 1e-200); ("a", 1e200)] = [("b", 1e-200); ("a", 1e200)].
Proof.
  split; [reflexivity|].
  apply (proj1 (C3_overflow_atomic string [("b", 1e-200); ("a", 1e200)]
                  [("b", 1e-200); ("a", 1e200)] 1e200)).
  reflexivity.
Defined.

(** C4: on a set satisfying I1, [*= scale] with [scale >= 0], and
    [/= scale] with [scale > 0], return whenever no new weight is infinite
    or NaN: a new weight of zero is no error, and its key is absent
    afterwards; whenever either operator returns, every key whose new
    weight is zero is absent; [*= 0] returns and empties the set; and
    after [add("a", 1e-200)], [/= 1e200] returns and ["a"] is absent. *)
Theorem C4_zero_weights_dropped :
  (forall (T : Type) `{EqDecision T} (self : @dict T) (scale : float),
      dict_wf self -> I1 self -> (0 <=? scale) = true ->
      (forall kw, In kw self -> is_inf_or_nan (snd kw * scale) = false) ->
      exists self',
        __imul__ scale self = (Ok tt, self') /\
        forall k w, In (k, w) self -> (w * scale =? 0) = true ->
                    __contains__ k self' = false) /\
  (forall (T : Type) `{EqDecision T} (self : @dict T) (scale : float),
      dict_wf self -> I1 self -> (0 <? scale) = true ->
      (forall kw, In kw self -> is_inf_or_nan (snd kw / scale) = false) ->
      exists self',
        __itruediv__ scale self = (Ok tt, self') /\
        forall k w, In (k, w) self -> (w / scale =? 0) = true ->
                    __contains__ k self' = false) /\
  (forall (T : Type) `{EqDecision T} (self self' : @dict T) (scale : float) k w,
      dict_wf self -> I1 self -> __imul__ scale self = (Ok tt, self') ->
      In (k, w) self -> (w * scale =? 0) = true -> __contains__ k self' = false) /\
  (forall (T : Type) `{EqDecision T} (self self' : @dict T) (scale : float) k w,
      dict_wf self -> I1 self -> __itruediv__ scale self = (Ok tt, self') ->
      In (k, w) self -> (w / scale =? 0) = true -> __contains__ k self' = false) /\
  (forall (T : Type) `{EqDecision T} (self : @dict T) (scale : float),
      I1 self -> (scale =? 0) = true -> __imul__ scale self = (Ok tt, [])) /\
  (exists self1 self2 : @dict string,
      add "a" 1e-200 __init__ = (Ok tt, self1) /\
      __itruediv__ 1e200 self1 = (Ok tt, self2) /\
      __contains__ "a" self2 = false).
Proof.
  assert (Hmul : forall (T : Type) `{EqDecision T} (self self' : @dict T) scale k w,
             dict_wf self -> __imul__ scale self = (Ok tt, self') ->
             In (k, w) self -> (w * scale =? 0) = true ->
             __contains__ k self' = false).
  { intros T ? self self' scale k w Hwf Hok Hin Hz.
    rewrite (imul_Ok _ _ _ Hwf Hok).
    now apply (scaled_drops_zero (fun weight => weight * scale) self k w). }
  assert (Hdiv : forall (T : Type) `{EqDecision T} (self self' : @dict T) scale k w,
             dict_wf self -> __itruediv__ scale self = (Ok tt, self') ->
             In (k, w) self -> (w / scale =? 0) = true ->
             __contains__ k self' = false).
  { intros T ? self self' scale k w Hwf Hok Hin Hz.
    rewrite (itruediv_Ok _ _ _ Hwf Hok).
    now apply (scaled_drops_zero (fun weight => weight / scale) self k w). }
  split; [|split; [|split; [|split; [|split]]]].
  - intros T ? self scale Hwf _ Hs Hfin.
    destruct (imul_returns scale self Hs Hfin) as [self' Hok].
    exists self'. split; [exact Hok|]. intros k w. now apply Hmul.
  - intros T ? self scale Hwf _ Hs Hfin.
    destruct (itruediv_returns scale self Hs Hfin) as [self' Hok].
    exists self'. split; [exact Hok|]. intros k w. now apply Hdiv.
  - intros T ? self self' scale k w Hwf _. now apply Hmul.
  - intros T ? self self' scale k w Hwf _. now apply Hdiv.
  - intros T ? self scale. apply imul_zero.
  - eexists. eexists. repeat split; reflexivity.
Qed.

Lemma dict_wf_ab (x y : float) : dict_wf [("a", x); ("b", y)].
Proof.
  unfold dict_wf. simpl. apply NoDup_cons. split.
  - intros Hin. apply list_elem_of_singleton in Hin. discriminate.
  - apply NoDup_singleton.
Qed.

Lemma C4_witness :
  I1 [("a", 1e-200); ("b", 2)] /\
  exists self' : @dict string,
    __imul__ 1e-200 [("a", 1e-200); ("b", 2)] = (Ok tt, self') /\
    __contains__ "a" self' = false.
Proof.
  assert (HI : I1 [("a", 1e-200); ("b", 2)]) by (repeat constructor).
  split; [exact HI|].
  destruct C4_zero_weights_dropped as [Hmul _].
  destruct (Hmul string _ [("a", 1e-200); ("b", 2)] 1e-200 (dict_wf_ab _ _) HI eq_refl)
    as (self' & Hok & Hdrop).
  - intros kw [<-|[<-|[]]]; reflexivity.
  - exists self'. split; [exact Hok|].
    apply (Hdrop "a" 1e-200); [now left|reflexivity].
Defined.

(** C5, as stated, fails: with a NaN weight in the set, a key of weight 1
    comes before a key of weight 2. *)
Lemma C5_counterexample :
  dict_nan = [("a", 1); ("b", nan); ("c", 2)] /\
  keys dict_nan = ["a"; "b"; "c"] /\
  ~ keys_non_increasing dict_nan.
Proof.
  split; [reflexivity|]. split; [reflexivity|].
  intros Hs. specialize (Hs 0%nat 2%nat "a" "c" 1 2).
  discriminate Hs; (lia || reflexivity).
Qed.

(** C5, amended: when no stored weight is NaN, [keys()] is a permutation of
    the keys present, an earlier key is at least as heavy as a later one,
    and the keys of one weight come in insertion order; the six [add]s of
    the scenario give [["e"; "f"; "d"; "c"; "a"; "b"]]. *)
Theorem C5_keys_sorted_stable :
  (forall (T : Type) `{EqDecision T} (self : @dict T),
      dict_wf self -> no_nan self ->
      Permutation (keys self) (map fst self) /\
      keys_non_increasing self /\
      keys_stable self) /\
  keys dict_six = ["e"; "f"; "d"; "c"; "a"; "b"].
Proof.
  split; [|reflexivity].
  intros T ? self Hwf Hnan. split; [apply keys_perm|]. split.
  - now apply keys_sorted.
  - now apply keys_stable_wf.
Qed.

Lemma C5_witness :
  dict_wf [("a", 2); ("b", 2)] /\ no_nan [("a", 2); ("b", 2)] /\
  keys_stable [("a", 2); ("b", 2)] /\ keys [("a", 2); ("b", 2)] = ["a"; "b"].
Proof.
  assert (Hnan : no_nan [("a", 2); ("b", 2)]) by (repeat constructor).
  split; [apply dict_wf_ab|]. split; [exact Hnan|]. split; [|reflexivity].
  destruct C5_keys_sorted_stable as [Hgen _].
  apply (Hgen string _ [("a", 2); ("b", 2)] (dict_wf_ab _ _) Hnan).
Defined.

(** C6: on a set without [key], [add(key, w1)] then [add(key, w2)], with
    both weights [>= 0] and one of them [> 0], leaves [key] with the
    weight [w1 + w2]. *)
Theorem C6_add_twice :
  forall (T : Type) `{EqDecision T} (self : @dict T) (key : T) (w1 w2 : float),
    __contains__ key self = false ->
    (0 <=? w1) = true -> (0 <=? w2) = true ->
    (0 <? w1) || (0 <? w2) = true ->
    exists self1 self2,
      add key w1 self = (Ok tt, self1) /\
      add key w2 self1 = (Ok tt, self2) /\
      __getitem__ key self2 = (Ok (w1 + w2), self2).
Proof.
  intros T ? self key w1 w2 Hc H1 H2 Hpos.
  destruct (le0_cases _ H1) as [Z1|P1], (le0_cases _ H2) as [Z2|P2].
  - (* both weights are zero: excluded *)
    exfalso. apply orb_prop in Hpos as [Hp|Hp];
      apply lt0_not_special in Hp as [_ Hp]; congruence.
  - (* the first [add] is ignored, the second inserts [w2 = w1 + w2] *)
    exists self, (dict_set self key w2). rewrite add_zero, add_new by assumption.
    rewrite (add_zero_l _ _ Z1 P2). auto using getitem_set.
  - (* the first [add] inserts [w1 = w1 + w2], the second is ignored *)
    exists (dict_set self key w1), (dict_set self key w1).
    rewrite add_new, add_zero by assumption.
    rewrite (add_zero_r _ _ P1 Z2). auto using getitem_set.
  - (* the first [add] inserts [w1], the second finds it and stores the sum *)
    exists (dict_set self key w1), (dict_set (dict_set self key w1) key (w1 + w2)).
    rewrite add_new by assumption.
    rewrite (add_existing key w2 w1) by auto using dict_get_set_eq.
    auto using getitem_set.
Qed.

Lemma C6_witness :
  exists self1 self2 : @dict string,
    add "a" 0.1 [("b", 1)] = (Ok tt, self1) /\
    add "a" 0.2 self1 = (Ok tt, self2) /\
    __getitem__ "a" self2 = (Ok (0.1 + 0.2), self2).
Proof.
  apply (C6_add_twice string [("b", 1)] "a" 0.1 0.2); reflexivity.
Defined.

(** C7: [*=] with a negative factor raises [ValueError]; [/=] with a zero
    divisor raises [ZeroDivisionError], which is not [ValueError]; [/=]
    with a negative divisor raises [ValueError]; the mapping is unchanged
    each time. *)
Theorem C7_scaling_argument_errors :
  forall (T : Type) `{EqDecision T} (self : @dict T) (scale : float),
    ((scale <? 0) = true -> __imul__ scale self = (Raise ValueError, self)) /\
    ((scale =? 0) = true -> __itruediv__ scale self = (Raise ZeroDivisionError, self)) /\
    ((scale <? 0) = true -> __itruediv__ scale self = (Raise ValueError, self)) /\
    ZeroDivisionError <> ValueError.
Proof.
  intros T ? self scale. split; [apply imul_negative|].
  split; [apply itruediv_zero|]. split; [apply itruediv_negative|discriminate].
Qed.

Lemma C7_witness :
  (-3 <? 0) = true /\
  __imul__ (-3) [("a", 1)] = (Raise ValueError, [("a", 1)]) /\
  __itruediv__ (-3) [("a", 1)] = (Raise ValueError, [("a", 1)]).
Proof.
  destruct (C7_scaling_argument_errors string [("a", 1)] (-3)) as (Hm & _ & Hd & _).
  split; [reflexivity|]. split; [apply Hm|apply Hd]; reflexivity.
Defined.

(** C8: [clamp(limit)] with [limit > 0] keeps the keys, sets to [limit]
    every weight above [limit], leaves every weight at or below [limit]
    as it is, and a second [clamp(limit)] changes nothing. *)
Theorem C8_clamp :
  forall (T : Type) `{EqDecision T} (self : @dict T) (limit : float),
    dict_wf self -> (0 <? limit) = true ->
    exists self',
      clamp limit self = (Ok tt, self') /\
      map fst self' = map fst self /\
      (forall k w, dict_get self k = Some w -> (limit <? w) = true ->
                   dict_get self' k = Some limit) /\
      (forall k w, dict_get self k = Some w -> (w <=? limit) = true ->
                   dict_get self' k = Some w) /\
      clamp limit self' = (Ok tt, self').
Proof.
  intros T ? self limit Hwf Hl. destruct (lt0_not_special _ Hl) as [Hlt Heq].
  exists (clamped limit self). split; [now apply clamp_Ok|].
  split; [apply map_fst_clamped|]. split; [|split].
  - intros k w Hg Hgt. unfold clamped. rewrite dict_get_map_val, Hg. simpl.
    unfold clamp_weight. now rewrite Hgt.
  - intros k w Hg Hle. unfold clamped. rewrite dict_get_map_val, Hg. simpl.
    unfold clamp_weight. now rewrite (leb_not_ltb _ _ Hle).
  - rewrite clamp_Ok; auto.
    + now rewrite clamped_idem.
    + unfold dict_wf. now rewrite map_fst_clamped.
Qed.

Lemma C8_witness :
  exists self' : @dict string,
    clamp 2 [("a", 1); ("b", 3)] = (Ok tt, self') /\
    map fst self' = ["a"; "b"] /\
    dict_get self' "b" = Some 2 /\
    dict_get self' "a" = Some 1 /\
    clamp 2 self' = (Ok tt, self').
Proof.
  destruct (C8_clamp string [("a", 1); ("b", 3)] 2 (dict_wf_ab _ _) eq_refl)
    as (self' & Hc & Hk & Hgt & Hle & Hid).
  exists self'. split; [exact Hc|]. split; [exact Hk|]. split; [|split].
  - apply (Hgt "b" 3); reflexivity.
  - apply (Hle "a" 1); reflexivity.
  - exact Hid.
Defined.

(** C9: on a set satisfying I1, [a.update(a)] returns, keeps the keys and
    their order, gives every key the weight [w + w], and leaves the other
    objects as they were. *)
Theorem C9_update_self_doubles :
  forall (T : Type) `{EqDecision T} (h : @heap T) (self : ref),
    (self < length h)%nat -> dict_wf (weights h self) -> I1 (weights h self) ->
    exists h',
      update self [WeightedSet self] h = (Ok tt, h') /\
      map fst (weights h' self) = map fst (weights h self) /\
      (forall k w, dict_get (weights h self) k = Some w ->
                   dict_get (weights h' self) k = Some (w + w)) /\
      (forall r : ref, r <> self -> weights h' r = weights h r).
Proof.
  intros T ? h self Hself Hwf HI.
  exists (<[self := doubled (weights h self)]> h).
  split; [now apply update_self|].
  rewrite weights_insert by assumption. split; [|split].
  - unfold doubled. now rewrite map_map.
  - intros k w Hg. unfold doubled.
    now rewrite (dict_get_map_val (fun w => w + w)), Hg.
  - intros r Hr. unfold weights, heap, dict, ref in *.
    now rewrite list_lookup_insert_ne.
Qed.

Lemma C9_witness :
  exists h' : @heap string,
    update 0%nat [WeightedSet 0%nat] [[("a", 1); ("b", 0.1)]] = (Ok tt, h') /\
    map fst (weights h' 0%nat) = ["a"; "b"] /\
    dict_get (weights h' 0%nat) "b" = Some (0.1 + 0.1).
Proof.
  assert (HI : I1 [("a", 1); ("b", 0.1)]) by (repeat constructor).
  destruct (C9_update_self_doubles string [[("a", 1); ("b", 0.1)]] 0%nat
              (le_n 1) (dict_wf_ab _ _) HI) as (h' & Hu & Hk & Hg & _).
  exists h'. split; [exact Hu|]. split; [exact Hk|].
  apply (Hg "b" 0.1). reflexivity.
Defined.

(** C10: in a reachable store, when the arguments before the first one
    that is not a weighted set are weighted sets, [update] merges them all
    and then raises [TypeError], keeping the merged state; for instance
    [s.update(o, 5)], with ["a"] at weight 1 in [s] and at weight 2 in
    [o], raises and leaves ["a"] at weight 3 in [s]. *)
Theorem C10_update_type_error_not_atomic :
  (forall (T : Type) `{EqDecision T} (h : @heap T) (self : ref)
          (pre post : list pyobj),
      reachable h -> forallb is_weighted_set pre = true ->
      exists h1,
        update self pre h = (Ok tt, h1) /\
        update self (pre ++ NotWeightedSet :: post) h = (Raise TypeError, h1)) /\
  (heap_two = [[("a", 1)]; [("a", 2)]] /\
   update 0%nat [WeightedSet 1%nat; NotWeightedSet] heap_two
     = (Raise TypeError, [[("a", 3)]; [("a", 2)]])).
Proof.
  split; [|split; reflexivity].
  intros T ? h self pre post Hr Hws.
  pose proof (update_returns self pre h (reachable_inv h Hr) Hws) as Hok.
  destruct (update self pre h) as [res h1] eqn:E. simpl in Hok. subst res.
  exists h1. split; [reflexivity|]. now apply update_type_error.
Qed.

Lemma C10_witness :
  exists h1 : @heap string,
    update 0%nat [WeightedSet 0%nat] heap_inf = (Ok tt, h1) /\
    update 0%nat ([WeightedSet 0%nat] ++ [NotWeightedSet]) heap_inf
      = (Raise TypeError, h1).
Proof.
  assert (Hr : reachable heap_inf).
  { unfold heap_inf. repeat (apply reachable_run; [|reflexivity]). apply reachable_empty. }
  destruct C10_update_type_error_not_atomic as [Hgen _].
  apply (Hgen string _ heap_inf 0%nat [WeightedSet 0%nat] [] Hr eq_refl).
Defined.

(** ** Further properties of the class *)

Close Scope string_scope.

Section MoreProperties.

Context {T : Type} `{EqDecision T}.
Implicit Types (self d : @dict T) (key k : T) (h : @heap T).
Implicit Types (l items : list (T * float)).

(** *** Lookups after an assignment and after [add] *)

Lemma dict_get_set_ne d k k' v :
  k' <> k -> dict_get (dict_set d k v) k' = dict_get d k'.
Proof.
  intros Hne. induction d as [|[k0 w0] d IH]; simpl.
  - now rewrite decide_False by congruence.
  - destruct (decide (k0 = k)) as [->|Hk0]; simpl.
    + now rewrite !decide_False by congruence.
    + destruct (decide (k0 = k')); [reflexivity|assumption].
Qed.

Lemma dict_set_keys d k v :
  map fst (dict_set d k v) =
  if dict_contains d k then map fst d else map fst d ++ [k].
Proof.
  destruct (dict_contains d k) eqn:E.
  - apply dict_set_keys_present. unfold dict_contains in E.
    destruct (dict_get d k) as [w|] eqn:Eg; [|discriminate].
    change k with (fst (k, w)). apply in_map. now apply dict_get_In.
  - apply dict_contains_false in E.
    rewrite dict_set_absent, map_app by assumption. reflexivity.
Qed.

Lemma add_stores key weight self :
  (weight <? 0) = false -> (weight =? 0) = false ->
  add key weight self =
    (Ok tt, dict_set self key
              (match dict_get self key with
               | Some current => current + weight
               | None => weight
               end)).
Proof.
  intros Hlt Heq. unfold add, __contains__, dict_contains. rewrite Hlt, Heq.
  destruct (dict_get self key); reflexivity.
Qed.

(** *** [dict.update] into an empty dictionary *)

Lemma dict_update_app (other : @dict T) :
  forall d, NoDup (map fst d ++ map fst other) -> dict_update d other = d ++ other.
Proof.
  induction other as [|[k w] other IH]; intros d Hnd; simpl.
  - now rewrite app_nil_r.
  - assert (Hk : ~ In k (map fst d)).
    { apply NoDup_app in Hnd as (_ & Hdisj & _). intros Hin.
      apply (Hdisj k); [now apply list_elem_of_In|now left]. }
    rewrite dict_set_absent by assumption. rewrite IH.
    + now rewrite <- app_assoc.
    + rewrite map_app. simpl. now rewrite <- app_assoc.
Qed.

(** *** [max_weight] *)

Lemma max_fold_In (rest : list float) :
  forall v, In (fold_left max_step rest v) (v :: rest).
Proof.
  induction rest as [|x rest IH]; intros v; simpl; [now left|].
  destruct (IH (max_step v x)) as [E|Hin]; [|now right; right].
  rewrite <- E. unfold max_step. destruct (v <? x); [right; left|left]; reflexivity.
Qed.

Lemma max_fold_ge (rest : list float) :
  forall v, is_nan v = false -> Forall (fun x => is_nan x = false) rest ->
    Forall (fun x => (x <=? fold_left max_step rest v) = true) (v :: rest).
Proof.
  induction rest as [|x rest IH]; intros v Hv Hrest; simpl.
  - constructor; [now apply leb_refl|constructor].
  - apply Forall_cons in Hrest as [Hx Hrest].
    assert (Hstep : is_nan (max_step v x) = false).
    { unfold max_step. now destruct (v <? x). }
    specialize (IH _ Hstep Hrest). apply Forall_cons in IH as [Htop IH].
    assert (Hv' : (v <=? max_step v x) = true).
    { unfold max_step. destruct (v <? x) eqn:E; [now apply ltb_leb|now apply leb_refl]. }
    assert (Hx' : (x <=? max_step v x) = true).
    { unfold max_step. destruct (v <? x) eqn:E; [now apply leb_refl|now apply ltb_false_leb]. }
    constructor; [eapply leb_trans; eassumption|].
    constructor; [eapply leb_trans; eassumption|assumption].
Qed.

Lemma max_weight_fold self w0 l :
  self = w0 :: l -> max_weight self = fold_left max_step (map snd l) (snd w0).
Proof. intros ->. reflexivity. Qed.

Lemma max_weight_In self :
  self <> [] -> exists k, In (k, max_weight self) self.
Proof.
  destruct self as [|[k0 w0] l]; [congruence|]. intros _.
  rewrite (max_weight_fold _ (k0, w0) l eq_refl). simpl.
  pose proof (max_fold_In (map snd l) w0) as Hin. simpl in Hin.
  destruct Hin as [<-|Hin]; [exists k0; now left|].
  apply in_map_iff in Hin as ([k w] & Hw & Hin). simpl in Hw. subst w.
  exists k. now right.
Qed.

Lemma max_weight_ge self k w :
  no_nan self -> In (k, w) self -> (w <=? max_weight self) = true.
Proof.
  destruct self as [|[k0 w0] l]; [intros _ []|]. intros Hnan Hin.
  rewrite (max_weight_fold _ (k0, w0) l eq_refl). simpl.
  apply Forall_cons in Hnan as [Hn0 Hnan]. simpl in Hn0.
  assert (Hrest : Forall (fun x => is_nan x = false) (map snd l)).
  { apply List.Forall_forall. intros x Hx.
    apply in_map_iff in Hx as (kw & <- & Hkw).
    unfold no_nan in Hnan. rewrite List.Forall_forall in Hnan. now apply Hnan. }
  pose proof (max_fold_ge (map snd l) w0 Hn0 Hrest) as Hge.
  rewrite List.Forall_forall in Hge. apply Hge.
  destruct Hin as [E|Hin].
  - injection E as _ <-. now left.
  - right. change w with (snd (k, w)). now apply in_map.
Qed.

Lemma max_weight_bounded limit self :
  (0 <=? limit) = true -> bounded_by limit self ->
  (max_weight self <=? limit) = true.
Proof.
  intros H0 Hb. destruct self as [|kw l] eqn:E; [exact H0|].
  destruct (max_weight_In self) as [k Hin]; [congruence|]. subst self.
  unfold bounded_by in Hb. rewrite List.Forall_forall in Hb.
  exact (Hb _ Hin).
Qed.

(** *** [clamp] *)

Lemma nan_not_ltb x y : is_nan x = true -> (x <? y) = false.
Proof.
  intros Hx. apply is_nan_sf in Hx. rewrite FloatAxioms.ltb_spec, Hx. reflexivity.
Qed.

Lemma nan_not_special x : is_nan x = true -> (x =? 0) = false /\ (x <? 0) = false.
Proof.
  intros Hx. apply is_nan_sf in Hx.
  rewrite FloatAxioms.ltb_spec, FloatAxioms.eqb_spec, Hx. split; reflexivity.
Qed.

Lemma filter_none {A} (p : A -> bool) (l : list A) :
  (forall x, In x l -> p x = false) -> List.filter p l = [].
Proof.
  induction l as [|a l IH]; intros Hp; simpl; [reflexivity|].
  rewrite (Hp a) by now left. apply IH. intros; apply Hp; now right.
Qed.

Lemma clamp_nan limit self : is_nan limit = true -> clamp limit self = (Ok tt, self).
Proof.
  intros Hn. unfold clamp. destruct (nan_not_special _ Hn) as [-> ->].
  rewrite filter_none; [reflexivity|]. intros kw _. now apply nan_not_ltb.
Qed.

Lemma clamp_loop_I1 (ks : list T) limit :
  I1_weight limit = true -> forall d, I1 d -> I1 (clamp_loop ks limit d).
Proof.
  intros Hl. induction ks as [|k ks IH]; intros d Hd; simpl; [assumption|].
  apply IH. apply dict_set_Forall; auto.
Qed.

Lemma clamp_I1 limit self self' :
  I1 self -> clamp limit self = (Ok tt, self') -> I1 self'.
Proof.
  intros HI. unfold clamp. destruct (limit =? 0) eqn:E0; [discriminate|].
  destruct (limit <? 0) eqn:Eneg; [discriminate|]. intros [= <-].
  destruct (List.filter (fun kw : T * float => limit <? snd kw) self)
    as [|[k w] over] eqn:Ef; [assumption|].
  apply clamp_loop_I1; [|assumption].
  assert (Hin : In (k, w) (List.filter (fun kw : T * float => limit <? snd kw) self)).
  { rewrite Ef. now left. }
  apply filter_In in Hin as [Hin Hlt]. simpl in Hlt.
  destruct (I1_In _ _ HI Hin) as [_ Hfin]. simpl in Hfin.
  unfold I1_weight. now apply (limit_below_finite limit w).
Qed.

Lemma clamped_bounded limit self :
  (0 <? limit) = true -> no_nan self -> bounded_by limit (clamped limit self).
Proof.
  intros Hl Hnan. unfold bounded_by, clamped. apply Forall_map.
  eapply Forall_impl; [exact Hnan|]. intros [k w] Hw. simpl in *.
  unfold clamp_weight. destruct (limit <? w) eqn:E.
  - apply leb_refl. now apply I1_not_nan.
  - apply ltb_false_leb; [now apply I1_not_nan|assumption|assumption].
Qed.

(** *** Scaling that returns *)

Lemma scale_loop_raises (rescale : float -> float) items :
  forall (acc : @dict T) e, scale_loop rescale items acc = Raise e -> e = OverflowError.
Proof.
  induction items as [|[k w] items IH]; intros acc e; simpl; [discriminate|].
  destruct (rescale w =? 0); [apply IH|].
  destruct (in_inf_nan (rescale w)); [congruence|apply IH].
Qed.

Lemma scale_loop_Ok_checked (rescale : float -> float) items :
  forall acc d' : @dict T, scale_loop rescale items acc = Ok d' ->
    Forall (fun kw => (rescale (snd kw) =? 0) = false ->
                      (rescale (snd kw) =? infinity) = false) items.
Proof.
  induction items as [|[k w] items IH]; intros acc d'; simpl; [constructor|].
  destruct (rescale w =? 0) eqn:Ez.
  - intros E. constructor; [simpl; congruence|eapply IH; eassumption].
  - destruct (in_inf_nan (rescale w)) eqn:Ein; [discriminate|].
    unfold in_inf_nan in Ein. apply orb_false_elim in Ein as [Ei _].
    intros E. constructor; [auto|eapply IH; eassumption].
Qed.

Lemma dict_get_scaled (rescale : float -> float) d k w :
  dict_wf d -> dict_get d k = Some w ->
  dict_get (scaled rescale d) k =
    if rescale w =? 0 then None else Some (rescale w).
Proof.
  unfold dict_wf, scaled. induction d as [|[k0 w0] d IH]; simpl; [discriminate|].
  intros Hnd. apply NoDup_cons in Hnd as [Hk0 Hnd].
  destruct (decide (k0 = k)) as [->|Hne].
  - intros [= ->]. destruct (rescale w =? 0) eqn:Ez; simpl.
    + apply dict_get_None. rewrite map_map. simpl. intros Hin.
      apply in_map_iff in Hin as ([k' w'] & Hfst & Hf). simpl in Hfst. subst k'.
      apply filter_In in Hf as [Hin _]. apply Hk0.
      apply list_elem_of_In. change k with (fst (k, w')). now apply in_map.
    + now rewrite decide_True.
  - intros Hg. destruct (rescale w0 =? 0); simpl; [now apply IH|].
    rewrite decide_False by assumption. now apply IH.
Qed.

Lemma scaled_keys (rescale : float -> float) d :
  map fst (scaled rescale d) =
  map fst (List.filter (fun kw => negb (rescale (snd kw) =? 0)) d).
Proof. unfold scaled. now rewrite map_map. Qed.

Lemma scaled_I1 (rescale : float -> float) d :
  Forall (fun kw => (0 <=? rescale (snd kw)) = true) d ->
  Forall (fun kw => (rescale (snd kw) =? 0) = false ->
                    (rescale (snd kw) =? infinity) = false) d ->
  I1 (scaled rescale d).
Proof.
  intros Hnn Hck. unfold I1, scaled. apply Forall_map.
  apply List.Forall_forall. intros [k w] Hin. simpl.
  apply filter_In in Hin as [Hin Hnz]. simpl in Hnz.
  apply negb_true_iff in Hnz.
  rewrite List.Forall_forall in Hnn, Hck.
  unfold I1_weight. apply sf_nonneg_I1; [exact (Hnn _ Hin)|assumption|].
  exact (Hck _ Hin Hnz).
Qed.

Lemma eq_inf_inf_or_nan x : (x =? infinity) = true -> is_inf_or_nan x = true.
Proof. intros Hx. apply inf_or_nan_sf. apply eq_inf_sf in Hx. now rewrite Hx. Qed.

(** *** [keys] lists the keys present *)

Lemma contains_In self k : __contains__ k self = true <-> In k (map fst self).
Proof.
  unfold __contains__. destruct (dict_contains self k) eqn:E.
  - split; [intros _|reflexivity]. unfold dict_contains in E.
    destruct (dict_get self k) as [w|] eqn:Eg; [|discriminate].
    change k with (fst (k, w)). apply in_map. now apply dict_get_In.
  - split; [discriminate|]. intros Hin. apply dict_contains_false in E. contradiction.
Qed.

Lemma keys_In self k : In k (keys self) <-> In k (map fst self).
Proof.
  split; intros Hk.
  - eapply Permutation_in; [apply keys_perm|assumption].
  - eapply Permutation_in; [symmetry; apply keys_perm|assumption].
Qed.

Lemma keys_head_heaviest self k rest :
  dict_wf self -> no_nan self -> keys self = k :: rest ->
  exists w, dict_get self k = Some w /\ (w =? max_weight self) = true.
Proof.
  intros Hwf Hnan Hkeys.
  assert (Hne : self <> []) by (intros ->; discriminate).
  destruct (max_weight_In self Hne) as [k' Hmax].
  assert (Hk : In k (map fst self)) by (apply keys_In; rewrite Hkeys; now left).
  apply in_map_iff in Hk as ([k0 w] & Hfst & Hin). simpl in Hfst. subst k0.
  exists w. split; [now apply In_dict_get|].
  apply leb_antisym; [eapply max_weight_ge; eassumption|].
  assert (Hk' : k' ∈ keys self).
  { apply list_elem_of_In, keys_In. change k' with (fst (k', max_weight self)).
    now apply in_map. }
  apply list_elem_of_lookup in Hk' as [j Hj].
  destruct j as [|j].
  - rewrite Hkeys in Hj. injection Hj as ->.
    pose proof (In_dict_get _ _ _ Hwf Hin) as E1.
    pose proof (In_dict_get _ _ _ Hwf Hmax) as E2.
    rewrite E1 in E2. injection E2 as <-. apply leb_refl.
    unfold no_nan in Hnan. rewrite List.Forall_forall in Hnan. exact (Hnan _ Hin).
  - apply (keys_sorted self Hwf Hnan 0%nat (S j) k k' w (max_weight self)).
    + lia.
    + now rewrite Hkeys.
    + assumption.
    + now apply In_dict_get.
    + now apply In_dict_get.
Qed.

(** *** [copy] *)

Lemma copy_appends (self : ref) h :
  (self < length h)%nat -> dict_wf (weights h self) ->
  copy self h = (length h, h ++ [weights h self]).
Proof.
  intros Hself Hwf. unfold copy, new, __init__, weights, heap, dict, ref in *.
  rewrite (lookup_app_l h _ self) by assumption.
  rewrite (list_lookup_middle h [] _ (length h)) by reflexivity. simpl.
  rewrite dict_update_app by (simpl; exact Hwf). simpl.
  rewrite insert_app_r_alt by lia. rewrite Nat.sub_diag. reflexivity.
Qed.

Lemma weights_insert_ne h (r r' : ref) d :
  r' <> r -> weights (<[r := d]> h) r' = weights h r'.
Proof.
  intros Hne. unfold weights, heap, dict, ref in *.
  now rewrite list_lookup_insert_ne by congruence.
Qed.

Lemma call_frame {A} (self r : ref) (m : method A) h :
  r <> self -> weights (snd (call self m h)) r = weights h r.
Proof.
  intros Hne. unfold call. destruct (m (weights h self)) as [res w]. simpl.
  now apply weights_insert_ne.
Qed.

(** *** [update] from another object *)

Lemma add_get_eq key weight self :
  positive_or_nan weight ->
  dict_get (snd (add key weight self)) key =
    merged_weight (dict_get self key) (Some weight).
Proof.
  intros Hw. destruct (not_le0_split _ Hw) as [Hlt Heq].
  rewrite (add_stores _ _ _ Hlt Heq). simpl. rewrite dict_get_set_eq.
  destruct (dict_get self key); reflexivity.
Qed.

Lemma add_get_ne key weight self k :
  k <> key -> dict_get (snd (add key weight self)) k = dict_get self k.
Proof.
  intros Hne. unfold add.
  destruct (weight <? 0); [reflexivity|]. destruct (weight =? 0); [reflexivity|].
  destruct (__contains__ key self); simpl; [|now apply dict_get_set_ne].
  destruct (dict_get self key); simpl; [now apply dict_get_set_ne|reflexivity].
Qed.

Lemma update_loop_distinct (self ws : ref) :
  self <> ws ->
  forall (ks : list T) h,
    (self < length h)%nat -> NoDup ks -> heap_inv h ->
    (forall k, In k ks -> In k (map fst (weights h ws))) ->
    exists h',
      update_loop self ws ks h = (Ok tt, h') /\
      (forall r : ref, r <> self -> weights h' r = weights h r) /\
      forall k, dict_get (weights h' self) k =
                if decide (k ∈ ks)
                then merged_weight (dict_get (weights h self) k)
                                   (dict_get (weights h ws) k)
                else dict_get (weights h self) k.
Proof.
  intros Hne. induction ks as [|k ks IH]; intros h Hself Hnd Hinv Hks.
  - exists h. split; [reflexivity|]. split; [reflexivity|]. intros k.
    now rewrite decide_False by apply not_elem_of_nil.
  - apply NoDup_cons in Hnd as [Hk Hnd].
    destruct (dict_get (weights h ws) k) as [b|] eqn:Eg.
    2:{ exfalso. apply dict_get_None in Eg. apply Eg, Hks. now left. }
    pose proof (dict_inv_get _ _ _ (weights_inv h ws Hinv) Eg) as Hb.
    set (d1 := snd (add k b (weights h self))).
    set (h1 := <[self := d1]> h).
    assert (Hcall : call self (add k b) h = (Ok tt, h1)).
    { unfold call. pose proof (add_returns k b (weights h self) Hb) as Hr.
      subst h1 d1. destruct (add k b (weights h self)) as [res d]. simpl in *.
      now subst res. }
    assert (Hws1 : weights h1 ws = weights h ws).
    { subst h1. apply weights_insert_ne. congruence. }
    assert (Hself1 : weights h1 self = d1).
    { subst h1. now apply weights_insert. }
    destruct (IH h1) as (h' & Hloop & Hframe & Hget).
    + subst h1. unfold heap, dict, ref in *. now rewrite length_insert.
    + assumption.
    + subst h1. apply insert_inv; [assumption|]. subst d1.
      apply add_inv. now apply weights_inv.
    + intros k' Hk'. rewrite Hws1. apply Hks. now right.
    + exists h'. split; [|split].
      * simpl. unfold __getitem__. rewrite Eg, Hcall. exact Hloop.
      * intros r Hr. rewrite (Hframe r Hr). subst h1. now apply weights_insert_ne.
      * intros x. rewrite Hget, Hself1, Hws1.
        destruct (decide (x = k)) as [->|Hx].
        -- rewrite (decide_False (P := k ∈ ks)) by assumption.
           rewrite (decide_True (P := k ∈ k :: ks)) by now left.
           subst d1. rewrite Eg. now apply add_get_eq.
        -- subst d1. rewrite (add_get_ne k b _ x Hx).
           destruct (decide (x ∈ ks)) as [Hin|Hnin].
           ++ rewrite decide_True; [reflexivity|now right].
           ++ rewrite decide_False; [reflexivity|].
              intros Hc. apply elem_of_cons in Hc as [?|?]; contradiction.
Qed.

Lemma update_distinct (self ws : ref) h :
  self <> ws -> (self < length h)%nat -> heap_inv h ->
  exists h',
    update self [WeightedSet ws] h = (Ok tt, h') /\
    (forall r : ref, r <> self -> weights h' r = weights h r) /\
    forall k, dict_get (weights h' self) k =
              merged_weight (dict_get (weights h self) k) (dict_get (weights h ws) k).
Proof.
  intros Hne Hself Hinv.
  destruct (update_loop_distinct self ws Hne (keys (weights h ws)) h Hself)
    as (h' & Hloop & Hframe & Hget).
  - rewrite keys_perm. apply (weights_inv h ws Hinv).
  - assumption.
  - intros k. apply keys_In.
  - exists h'. split; [simpl; now rewrite Hloop|]. split; [assumption|].
    intros k. rewrite Hget. destruct (decide (k ∈ keys (weights h ws))) as [Hin|Hnin];
      [reflexivity|].
    assert (Hnone : dict_get (weights h ws) k = None).
    { apply dict_get_None. intros Hk. apply Hnin.
      now apply list_elem_of_In, keys_In. }
    rewrite Hnone. now destruct (dict_get (weights h self) k).
Qed.

(** *** What [update] leaves alone *)

Lemma update_loop_frame (self ws : ref) (ks : list T) :
  forall h (r : ref), r <> self ->
    weights (snd (update_loop self ws ks h)) r = weights h r.
Proof.
  induction ks as [|k ks IH]; intros h r Hne; simpl; [reflexivity|].
  unfold __getitem__. destruct (dict_get (weights h ws) k) as [w|]; [|reflexivity].
  pose proof (call_frame self r (add k w) h Hne) as Hc.
  destruct (call self (add k w) h) as [[[]|e] h']; simpl in *;
    [now rewrite IH|assumption].
Qed.

Lemma update_frame (self : ref) (others : list pyobj) :
  forall h (r : ref), r <> self ->
    weights (snd (update self others h)) r = weights h r.
Proof.
  induction others as [|[ws|] others IH]; intros h r Hne; simpl; try reflexivity.
  pose proof (update_loop_frame self ws (keys (weights h ws)) h r Hne) as Hl.
  destruct (update_loop self ws _ h) as [[[]|e] h']; simpl in *;
    [now rewrite IH|assumption].
Qed.

Lemma update_loop_keys_mono (self ws : ref) (ks : list T) k :
  forall h, In k (map fst (weights h self)) ->
    In k (map fst (weights (snd (update_loop self ws ks h)) self)).
Proof.
  induction ks as [|k0 ks IH]; intros h Hk; simpl; [assumption|].
  unfold __getitem__. destruct (dict_get (weights h ws) k0) as [w|]; [|assumption].
  pose proof (weights_call_mono self self (add k0 w) h k
                (fun d => add_keys_mono k0 w d k) Hk) as Hc.
  destruct (call self (add k0 w) h) as [[[]|e] h']; simpl in *;
    [now apply IH|assumption].
Qed.

Lemma update_keys_mono (self : ref) (others : list pyobj) k :
  forall h, In k (map fst (weights h self)) ->
    In k (map fst (weights (snd (update self others h)) self)).
Proof.
  induction others as [|[ws|] others IH]; intros h Hk; simpl; try assumption.
  pose proof (update_loop_keys_mono self ws (keys (weights h ws)) k h Hk) as Hl.
  destruct (update_loop self ws _ h) as [[[]|e] h']; simpl in *;
    [now apply IH|assumption].
Qed.

End MoreProperties.

(** ** Further statements *)

Open Scope string_scope.
Open Scope float_scope.

(** X1: [key in ws] tells whether [ws[key]] returns a weight or raises
    [KeyError]; neither changes the mapping. *)
Theorem X1_getitem_agrees_with_contains :
  forall (T : Type) `{EqDecision T} (self : @dict T) (key : T),
    (__contains__ key self = true <->
       exists w, __getitem__ key self = (Ok w, self)) /\
    (__contains__ key self = false <->
       __getitem__ key self = (Raise KeyError, self)).
Proof.
  intros T ? self key. unfold __contains__, dict_contains, __getitem__.
  destruct (dict_get self key) as [w|]; split; split;
    try reflexivity; try discriminate; eauto.
  intros [w Hw]. discriminate.
Qed.

Lemma X1_witness :
  __contains__ "b" [("a", 1)] = false /\
  __getitem__ "b" [("a", 1)] = (Raise KeyError, [("a", 1)]).
Proof.
  split; [reflexivity|].
  apply (proj2 (X1_getitem_agrees_with_contains string [("a", 1)] "b")).
  reflexivity.
Defined.

(** X2: [add(key, weight)] with a weight that is neither negative nor zero
    (an infinite or NaN weight included) returns; afterwards [key] has its
    old weight plus [weight], or [weight] if it was absent; the other keys
    keep their weights; and the keys keep their order, a new key going to
    the end. *)
Theorem X2_add_then_lookup :
  forall (T : Type) `{EqDecision T} (self : @dict T) (key : T) (weight : float),
    (weight <? 0) = false -> (weight =? 0) = false ->
    exists self',
      add key weight self = (Ok tt, self') /\
      __getitem__ key self' =
        (Ok (match dict_get self key with
             | Some current => current + weight
             | None => weight
             end), self') /\
      (forall k, k <> key -> dict_get self' k = dict_get self k) /\
      map fst self' =
        (if __contains__ key self then map fst self else map fst self ++ [key])%list.
Proof.
  intros T ? self key weight Hlt Heq.
  eexists. split; [now apply add_stores|]. split; [apply getitem_set|].
  split; [intros k Hk; now apply dict_get_set_ne|apply dict_set_keys].
Qed.

Lemma X2_witness :
  exists self' : @dict string,
    add "b" nan [("a", 1)] = (Ok tt, self') /\
    __getitem__ "b" self' = (Ok nan, self') /\
    dict_get self' "a" = Some 1 /\
    map fst self' = ["a"; "b"].
Proof.
  destruct (X2_add_then_lookup string [("a", 1)] "b" nan eq_refl eq_refl)
    as (self' & Ha & Hg & Hf & Hk).
  exists self'. split; [exact Ha|]. split; [exact Hg|]. split; [|exact Hk].
  rewrite (Hf "a"); [reflexivity|discriminate].
Defined.

(** X3: [add(key)] with the default weight always returns and leaves
    [key] present: with weight 1 if it was absent, with its old weight
    plus 1 otherwise. *)
Theorem X3_add_default_weight :
  forall (T : Type) `{EqDecision T} (self : @dict T) (key : T),
    exists self',
      add_default key self = (Ok tt, self') /\
      __contains__ key self' = true /\
      (__contains__ key self = false -> dict_get self' key = Some 1) /\
      (forall current, dict_get self key = Some current ->
                       dict_get self' key = Some (current + 1)).
Proof.
  intros T ? self key. unfold add_default.
  eexists. split; [now apply add_stores|].
  unfold __contains__, dict_contains. rewrite dict_get_set_eq.
  split; [reflexivity|]. split.
  - destruct (dict_get self key); [discriminate|reflexivity].
  - intros current ->. reflexivity.
Qed.

Lemma X3_witness :
  exists self' : @dict string,
    add_default "a" [("a", 2)] = (Ok tt, self') /\
    dict_get self' "a" = Some (2 + 1).
Proof.
  destruct (X3_add_default_weight string [("a", 2)] "a") as (self' & Ha & _ & _ & Hc).
  exists self'. split; [exact Ha|]. apply (Hc 2). reflexivity.
Defined.

(** X4: [clamp] raises [ValueError] on a zero or a negative limit and
    leaves the mapping as it was; a NaN limit passes both checks and
    [clamp] then returns without changing anything. *)
Theorem X4_clamp_limit_checks :
  forall (T : Type) `{EqDecision T} (self : @dict T) (limit : float),
    ((limit =? 0) = true -> clamp limit self = (Raise ValueError, self)) /\
    ((limit <? 0) = true -> clamp limit self = (Raise ValueError, self)) /\
    (is_nan limit = true -> clamp limit self = (Ok tt, self)).
Proof.
  intros T ? self limit. split; [|split].
  - intros H0. unfold clamp. now rewrite H0.
  - intros Hneg. unfold clamp. rewrite Hneg. now destruct (limit =? 0).
  - apply clamp_nan.
Qed.

Lemma X4_witness :
  clamp (-2) [("a", 1)] = (Raise ValueError, [("a", 1)]) /\
  clamp nan [("a", 1)] = (Ok tt, [("a", 1)]).
Proof.
  destruct (X4_clamp_limit_checks string [("a", 1)] (-2)) as (_ & Hneg & _).
  destruct (X4_clamp_limit_checks string [("a", 1)] nan) as (_ & _ & Hnan).
  split; [apply Hneg|apply Hnan]; reflexivity.
Defined.

(** X5: after [clamp(limit)] with [limit > 0] on a set without NaN
    weights, every weight is at most [limit], and so is [max_weight()]. *)
Theorem X5_clamp_bounds_max_weight :
  forall (T : Type) `{EqDecision T} (self : @dict T) (limit : float),
    dict_wf self -> no_nan self -> (0 <? limit) = true ->
    exists self',
      clamp limit self = (Ok tt, self') /\
      bounded_by limit self' /\
      (max_weight self' <=? limit) = true.
Proof.
  intros T ? self limit Hwf Hnan Hl. destruct (lt0_not_special _ Hl) as [Hlt Heq].
  exists (clamped limit self). split; [now apply clamp_Ok|].
  pose proof (clamped_bounded limit self Hl Hnan) as Hb.
  split; [exact Hb|]. apply max_weight_bounded; [now apply ltb_leb|exact Hb].
Qed.

Lemma X5_witness :
  exists self' : @dict string,
    clamp 2 [("a", 1); ("b", 3)] = (Ok tt, self') /\
    (max_weight self' <=? 2) = true.
Proof.
  assert (Hnan : no_nan [("a", 1); ("b", 3)]) by (repeat constructor).
  destruct (X5_clamp_bounds_max_weight string [("a", 1); ("b", 3)] 2
              (dict_wf_ab _ _) Hnan eq_refl) as (self' & Hc & _ & Hm).
  exists self'. split; assumption.
Defined.

(** X6: [max_weight()] is 0 on an empty set; on a non-empty set without
    NaN weights it is the weight of some key and no key is heavier. *)
Theorem X6_max_weight :
  forall (T : Type) `{EqDecision T},
    max_weight ([] : @dict T) = 0 /\
    forall self : @dict T, self <> [] -> no_nan self ->
      (exists k, In (k, max_weight self) self) /\
      (forall k w, In (k, w) self -> (w <=? max_weight self) = true).
Proof.
  intros T ?. split; [reflexivity|]. intros self Hne Hnan. split.
  - now apply max_weight_In.
  - intros k w. now apply max_weight_ge.
Qed.

Lemma X6_witness :
  (exists k, In (k, max_weight [("a", 1); ("b", 3)]) [("a", 1); ("b", 3)]) /\
  (1 <=? max_weight [("a", 1); ("b", 3)]) = true.
Proof.
  assert (Hnan : no_nan [("a", 1); ("b", 3)]) by (repeat constructor).
  destruct (proj2 (X6_max_weight string) [("a", 1); ("b", 3)]
              ltac:(discriminate) Hnan) as [Hin Hge].
  split; [exact Hin|]. apply (Hge "a"). now left.
Defined.

(** X7: on a set without NaN weights, the first key of [keys()] has a
    weight equal to [max_weight()]. *)
Theorem X7_first_key_is_heaviest :
  forall (T : Type) `{EqDecision T} (self : @dict T) (k : T) (rest : list T),
    dict_wf self -> no_nan self -> keys self = k :: rest ->
    exists w, __getitem__ k self = (Ok w, self) /\ (w =? max_weight self) = true.
Proof.
  intros T ? self k rest Hwf Hnan Hkeys.
  destruct (keys_head_heaviest self k rest Hwf Hnan Hkeys) as (w & Hg & Hmax).
  exists w. split; [|exact Hmax]. unfold __getitem__. now rewrite Hg.
Qed.

Lemma X7_witness :
  exists w, __getitem__ "b" [("a", 1); ("b", 3)] = (Ok w, [("a", 1); ("b", 3)]) /\
            (w =? max_weight [("a", 1); ("b", 3)]) = true.
Proof.
  assert (Hnan : no_nan [("a", 1); ("b", 3)]) by (repeat constructor).
  apply (X7_first_key_is_heaviest string [("a", 1); ("b", 3)] "b" ["a"]
           (dict_wf_ab _ _) Hnan eq_refl).
Defined.

(** X8: [copy()] returns a new object that holds the entries of the
    original, with the same weights and in the same order, and leaves
    every existing object as it was. *)
Theorem X8_copy_same_mapping :
  forall (T : Type) `{EqDecision T} (h : @heap T) (self : ref),
    (self < length h)%nat -> dict_wf (weights h self) ->
    exists h',
      copy self h = (length h, h') /\
      length h' = S (length h) /\
      weights h' (length h) = weights h self /\
      (forall r : ref, (r < length h)%nat -> weights h' r = weights h r).
Proof.
  intros T ? h self Hself Hwf. exists (h ++ [weights h self])%list.
  split; [now apply copy_appends|]. split; [|split].
  - rewrite length_app. simpl. lia.
  - unfold weights at 1. unfold heap, dict, ref in *.
    now rewrite (list_lookup_middle h [] _ (length h)) by reflexivity.
  - intros r Hr. unfold weights at 1 3. unfold heap, dict, ref in *.
    now rewrite lookup_app_l by assumption.
Qed.

Lemma X8_witness :
  exists h' : @heap string,
    copy 0%nat [[("a", 1); ("b", 2)]] = (1%nat, h') /\
    weights h' 1%nat = [("a", 1); ("b", 2)] /\
    weights h' 0%nat = [("a", 1); ("b", 2)].
Proof.
  destruct (X8_copy_same_mapping string [[("a", 1); ("b", 2)]] 0%nat
              (le_n 1) (dict_wf_ab _ _)) as (h' & Hc & _ & Hn & Hold).
  exists h'. split; [exact Hc|]. split; [exact Hn|].
  apply (Hold 0%nat). apply le_n.
Defined.

(** X9: in a reachable store, [self.update(other)] with another object
    returns, changes no object but [self], and gives every key its weight
    in [self] plus its weight in [other], or the one of the two that
    exists. *)
Theorem X9_update_merges_weights :
  forall (T : Type) `{EqDecision T} (h : @heap T) (self other : ref),
    reachable h -> self <> other -> (self < length h)%nat ->
    exists h',
      update self [WeightedSet other] h = (Ok tt, h') /\
      (forall r : ref, r <> self -> weights h' r = weights h r) /\
      forall k, dict_get (weights h' self) k =
                merged_weight (dict_get (weights h self) k)
                              (dict_get (weights h other) k).
Proof.
  intros T ? h self other Hr Hne Hself.
  apply update_distinct; [assumption|assumption|now apply reachable_inv].
Qed.

Lemma X9_witness :
  exists h' : @heap string,
    update 0%nat [WeightedSet 1%nat] heap_two = (Ok tt, h') /\
    dict_get (weights h' 0%nat) "a" = Some (1 + 2).
Proof.
  assert (Hr : reachable heap_two).
  { unfold heap_two. repeat (apply reachable_run; [|reflexivity]). apply reachable_empty. }
  destruct (X9_update_merges_weights string heap_two 0%nat 1%nat Hr
              ltac:(discriminate) (le_S _ _ (le_n 1))) as (h' & Hu & _ & Hg).
  exists h'. split; [exact Hu|]. rewrite (Hg "a"). reflexivity.
Defined.

(** X10: on a set satisfying I1, [*= scale] with [scale >= 0] either
    raises [OverflowError], or returns a set that satisfies I1 again, whose
    keys are, in order, those whose product with [scale] is not zero, each
    with that product as its weight. *)
Theorem X10_imul_result :
  forall (T : Type) `{EqDecision T} (self : @dict T) (scale : float),
    dict_wf self -> I1 self -> (0 <=? scale) = true ->
    __imul__ scale self = (Raise OverflowError, self) \/
    exists self',
      __imul__ scale self = (Ok tt, self') /\
      I1 self' /\
      map fst self' =
        map fst (List.filter (fun kw => negb (snd kw * scale =? 0)) self) /\
      forall k w, dict_get self k = Some w ->
        dict_get self' k = if w * scale =? 0 then None else Some (w * scale).
Proof.
  intros T ? self scale Hwf HI Hs. unfold __imul__. rewrite (le0_not_lt0 _ Hs).
  destruct (scale_loop _ self []) as [d'|e] eqn:E.
  - right. exists d'. split; [reflexivity|].
    pose proof (scale_loop_Ok_checked _ _ _ _ E) as Hck.
    apply scale_loop_Ok in E; [|exact Hwf]. simpl in E. subst d'.
    split; [|split].
    + apply scaled_I1; [|exact Hck]. apply List.Forall_forall. intros kw Hin.
      destruct (I1_In _ _ HI Hin). now apply mul_nonneg.
    + apply (scaled_keys (fun weight => weight * scale)).
    + intros k w Hg. now apply (dict_get_scaled (fun weight => weight * scale)).
  - left. now rewrite (scale_loop_raises _ _ _ _ E).
Qed.

Lemma X10_witness :
  exists self' : @dict string,
    __imul__ 1e-200 [("a", 1e-200); ("b", 2)] = (Ok tt, self') /\
    I1 self' /\ dict_get self' "a" = None /\ dict_get self' "b" = Some (2 * 1e-200).
Proof.
  assert (HI : I1 [("a", 1e-200); ("b", 2)]) by (repeat constructor).
  destruct (X10_imul_result string [("a", 1e-200); ("b", 2)] 1e-200
              (dict_wf_ab _ _) HI eq_refl) as [Hraise|(self' & Hm & HI' & _ & Hg)].
  - discriminate Hraise.
  - exists self'. split; [exact Hm|]. split; [exact HI'|]. split.
    + apply (Hg "a" 1e-200). reflexivity.
    + apply (Hg "b" 2). reflexivity.
Defined.

(** X11: on a set satisfying I1, [/= scale] with [scale > 0] either raises
    [OverflowError], or returns a set that satisfies I1 again, whose keys
    are, in order, those whose quotient by [scale] is not zero, each with
    that quotient as its weight. *)
Theorem X11_itruediv_result :
  forall (T : Type) `{EqDecision T} (self : @dict T) (scale : float),
    dict_wf self -> I1 self -> (0 <? scale) = true ->
    __itruediv__ scale self = (Raise OverflowError, self) \/
    exists self',
      __itruediv__ scale self = (Ok tt, self') /\
      I1 self' /\
      map fst self' =
        map fst (List.filter (fun kw => negb (snd kw / scale =? 0)) self) /\
      forall k w, dict_get self k = Some w ->
        dict_get self' k = if w / scale =? 0 then None else Some (w / scale).
Proof.
  intros T ? self scale Hwf HI Hs. unfold __itruediv__.
  destruct (lt0_not_special _ Hs) as [Hlt Heq]. rewrite Hlt, Heq.
  destruct (scale_loop _ self []) as [d'|e] eqn:E.
  - right. exists d'. split; [reflexivity|].
    pose proof (scale_loop_Ok_checked _ _ _ _ E) as Hck.
    apply scale_loop_Ok in E; [|exact Hwf]. simpl in E. subst d'.
    split; [|split].
    + apply scaled_I1; [|exact Hck]. apply List.Forall_forall. intros kw Hin.
      destruct (I1_In _ _ HI Hin). now apply div_nonneg.
    + apply (scaled_keys (fun weight => weight / scale)).
    + intros k w Hg. now apply (dict_get_scaled (fun weight => weight / scale)).
  - left. now rewrite (scale_loop_raises _ _ _ _ E).
Qed.

Lemma X11_witness :
  exists self' : @dict string,
    __itruediv__ 2 [("a", 1); ("b", 17.2)] = (Ok tt, self') /\
    I1 self' /\ dict_get self' "b" = Some (17.2 / 2).
Proof.
  assert (HI : I1 [("a", 1); ("b", 17.2)]) by (repeat constructor).
  destruct (X11_itruediv_result string [("a", 1); ("b", 17.2)] 2
              (dict_wf_ab _ _) HI eq_refl) as [Hraise|(self' & Hm & HI' & _ & Hg)].
  - discriminate Hraise.
  - exists self'. split; [exact Hm|]. split; [exact HI'|].
    apply (Hg "b" 17.2). reflexivity.
Defined.

(** X12: on a set satisfying I1, [/= inf] returns and empties the set,
    and [*= inf] raises [OverflowError] unless the set is empty. *)
Theorem X12_scaling_by_infinity :
  forall (T : Type) `{EqDecision T} (self : @dict T),
    I1 self ->
    __itruediv__ infinity self = (Ok tt, []) /\
    (self <> [] -> __imul__ infinity self = (Raise OverflowError, self)).
Proof.
  intros T ? self HI. split.
  - unfold __itruediv__. simpl.
    rewrite scale_loop_all_zero; [reflexivity|].
    intros kw Hin. destruct (I1_In _ _ HI Hin). now apply div_infinity.
  - intros Hne. apply imul_overflow; [assumption|reflexivity|].
    destruct self as [|kw l]; [congruence|]. exists kw. split; [now left|].
    destruct (I1_In _ _ HI (or_introl eq_refl : In kw (kw :: l))).
    apply eq_inf_inf_or_nan. now apply mul_infinity.
Qed.

Lemma X12_witness :
  __itruediv__ infinity [("a", 1)] = (Ok tt, []) /\
  __imul__ infinity [("a", 1)] = (Raise OverflowError, [("a", 1)]).
Proof.
  assert (HI : I1 [("a", 1)]) by (repeat constructor).
  destruct (X12_scaling_by_infinity string [("a", 1)] HI) as [Hd Hm].
  split; [exact Hd|]. apply Hm. discriminate.
Defined.

(** X14: [clamp] keeps I1: when it returns on a set satisfying I1, the
    set satisfies I1 afterwards, whatever the limit. *)
Theorem X14_clamp_keeps_I1 :
  forall (T : Type) `{EqDecision T} (self self' : @dict T) (limit : float),
    I1 self -> clamp limit self = (Ok tt, self') -> I1 self'.
Proof. intros T ? self self' limit. apply clamp_I1. Qed.

Lemma X14_witness : I1 [("a", 1); ("b", 2)].
Proof.
  assert (HI : I1 [("a", 1); ("b", 3)]) by (repeat constructor).
  apply (X14_clamp_keeps_I1 string [("a", 1); ("b", 3)] [("a", 1); ("b", 2)] 2 HI).
  reflexivity.
Defined.

(** X15: [add] of a positive finite weight to a set satisfying I1 returns
    and leaves every weight strictly positive (a sum may be infinite, but
    is neither zero nor NaN). *)
Theorem X15_add_keeps_weights_positive :
  forall (T : Type) `{EqDecision T} (self : @dict T) (key : T) (weight : float),
    I1 self -> I1_weight weight = true ->
    exists self',
      add key weight self = (Ok tt, self') /\
      Forall (fun kw => (0 <? snd kw) = true) self'.
Proof.
  intros T ? self key weight HI Hw.
  destruct (I1_weight_split _ Hw) as [Hpos Hfin].
  destruct (lt0_not_special _ Hpos) as [Hlt Heq].
  eexists. split; [now apply add_stores|].
  apply dict_set_Forall.
  - eapply Forall_impl; [exact HI|]. intros kw Hkw.
    now destruct (I1_weight_split _ Hkw).
  - intros k'. simpl. destruct (dict_get self key) as [current|] eqn:Eg; [|assumption].
    apply dict_get_In in Eg. destruct (I1_In _ _ HI Eg).
    now apply add_pos_finite.
Qed.

Lemma X15_witness :
  exists self' : @dict string,
    add "a" 1e308 [("a", 1e308)] = (Ok tt, self') /\
    Forall (fun kw => (0 <? snd kw) = true) self'.
Proof.
  assert (HI : I1 [("a", 1e308)]) by (repeat constructor).
  apply (X15_add_keeps_weights_positive string [("a", 1e308)] "a" 1e308 HI eq_refl).
Defined.

(** X16: [update] with several arguments is [update] with the first ones
    followed, if that returned, by [update] with the rest; an exception
    stops it with the store as it is then; with no argument it changes
    nothing. *)
Theorem X16_update_composes :
  forall (T : Type) `{EqDecision T} (h : @heap T) (self : ref)
         (first rest : list pyobj),
    update self [] h = (Ok tt, h) /\
    forall res h1, update self first h = (res, h1) ->
      update self (first ++ rest)%list h =
        match res with
        | Ok _ => update self rest h1
        | Raise e => (Raise e, h1)
        end.
Proof.
  intros T ? h self first rest. split; [reflexivity|].
  intros res h1 E. rewrite update_app, E. reflexivity.
Qed.

Lemma X16_witness :
  update 0%nat ([WeightedSet 1%nat] ++ [WeightedSet 1%nat])%list heap_two =
  update 0%nat [WeightedSet 1%nat] [[("a", 3)]; [("a", 2)]].
Proof.
  destruct (X16_update_composes string heap_two 0%nat
              [WeightedSet 1%nat] [WeightedSet 1%nat]) as [_ Hc].
  apply (Hc (Ok tt) [[("a", 3)]; [("a", 2)]]). reflexivity.
Defined.

(** X17: whatever its arguments and whether it returns or raises,
    [update] changes no object but [self] and removes no key of [self]. *)
Theorem X17_update_frame :
  forall (T : Type) `{EqDecision T} (h : @heap T) (self : ref)
         (others : list pyobj),
    (forall r : ref, r <> self ->
        weights (snd (update self others h)) r = weights h r) /\
    (forall k, __contains__ k (weights h self) = true ->
        __contains__ k (weights (snd (update self others h)) self) = true).
Proof.
  intros T ? h self others. split.
  - intros r. apply update_frame.
  - intros k Hk. apply contains_In. apply update_keys_mono. now apply contains_In.
Qed.

Lemma X17_witness :
  weights (snd (update 0%nat [WeightedSet 1%nat; NotWeightedSet] heap_two)) 1%nat
    = [("a", 2)] /\
  __contains__ "a"
    (weights (snd (update 0%nat [WeightedSet 1%nat; NotWeightedSet] heap_two)) 0%nat)
    = true.
Proof.
  destruct (X17_update_frame string heap_two 0%nat [WeightedSet 1%nat; NotWeightedSet])
    as [Hf Hk].
  split.
  - rewrite (Hf 1%nat); [reflexivity|discriminate].
  - apply (Hk "a"). reflexivity.
Defined.

End WSFacts.
